(** * StreamingToolParser: a shallow embedding and its properties

    The streaming parser of [src/core/assistant-message/StreamingToolParser.ts]
    consumes a character stream chunk by chunk and publishes [block] and
    [error] events.  The embedding below follows the TypeScript source
    function by function: the mutable [ParserContext] becomes a record that
    is passed explicitly, and every call of [emitBlock] / [emitError]
    becomes an element of the list of events a function returns.

    Characters are code units below 256 (Rocq's [ascii]); a chunk is a
    [string].  Parameter names are taken to be ordinary property keys of a
    JavaScript object, so that the [params] object is a finite map. *)

From Stdlib Require Import String Ascii List Bool Arith Lia.
From stdpp Require Import gmap strings list fin_maps.
Import ListNotations.

Local Open Scope string_scope.
Local Open Scope list_scope.

(** ** Characters, whitespace and [String.prototype.trim] *)

(** [/\s/.test(char)] on a code unit below 256: TAB, LF, VT, FF, CR, SP and
    NBSP.  [trim] strips exactly the same characters. *)
Definition isWhitespace (char : ascii) : bool :=
  let n := nat_of_ascii char in
  Nat.eqb n 9 || Nat.eqb n 10 || Nat.eqb n 11 || Nat.eqb n 12
  || Nat.eqb n 13 || Nat.eqb n 32 || Nat.eqb n 160.

(** JavaScript truthiness of a string: every string but the empty one. *)
Definition truthy (s : string) : bool :=
  match s with
  | EmptyString => false
  | String _ _ => true
  end.

Fixpoint trimStart (s : string) : string :=
  match s with
  | EmptyString => EmptyString
  | String c rest => if isWhitespace c then trimStart rest else s
  end.

Fixpoint trimEnd (s : string) : string :=
  match s with
  | EmptyString => EmptyString
  | String c rest =>
      match trimEnd rest with
      | EmptyString => if isWhitespace c then EmptyString else String c EmptyString
      | rest' => String c rest'
      end
  end.

Definition trim (s : string) : string := trimEnd (trimStart s).

(** [`${a}${c}`] with [c] a single character. *)
Definition str1 (c : ascii) : string := String c EmptyString.

(** ** Schema *)

Record StreamingToolParserOptions := {
  validToolNames : list string;
  validParamNamesByTool : gmap string (list string);
  relaxedMode : bool
}.

(** A [NodeSchema] object.  The source links nodes by [children] and
    [parent] references; a node is identified here by its path from the
    root, which carries everything the parser reads from it: a tool node
    knows its name and the names of its parameter children, a parameter
    node knows its parent tool node and its own name. *)
Inductive NodeSchema :=
| RootNode
| ToolNode (toolName : string) (paramNames : list string)
| ParamNode (toolName : string) (paramNames : list string) (paramName : string).

Definition nodeName (n : NodeSchema) : string :=
  match n with
  | RootNode => "root"
  | ToolNode t _ => t
  | ParamNode _ _ p => p
  end.

Definition allowedTextContent (n : NodeSchema) : bool :=
  match n with
  | RootNode => true
  | ToolNode _ _ => false
  | ParamNode _ _ _ => true
  end.

Definition parent (n : NodeSchema) : option NodeSchema :=
  match n with
  | RootNode => None
  | ToolNode _ _ => Some RootNode
  | ParamNode t ps _ => Some (ToolNode t ps)
  end.

(** [node === context.rootNode] *)
Definition isRoot (n : NodeSchema) : bool :=
  match n with
  | RootNode => true
  | _ => false
  end.

Definition buildSchemaFromValidTools (names : list string)
    (paramsByTool : gmap string (list string)) : list NodeSchema :=
  map (fun toolName =>
         match paramsByTool !! toolName with
         | Some params => ToolNode toolName params
         | None => ToolNode toolName []
         end) names.

(** [node.children], with the root's children built from the options. *)
Definition children (options : StreamingToolParserOptions) (n : NodeSchema)
    : list NodeSchema :=
  match n with
  | RootNode =>
      buildSchemaFromValidTools (validToolNames options)
                                (validParamNamesByTool options)
  | ToolNode t ps => map (ParamNode t ps) ps
  | ParamNode _ _ _ => []
  end.

(** ** Blocks, errors and events *)

Record ToolUse := {
  name : string;
  params : gmap string string;
  partial : bool
}.

Inductive AssistantMessageContent :=
| TextContentBlock (content : string) (isPartial : bool)
| ToolUseBlock (toolUse : ToolUse).

(** The diagnostics of the parser, one constructor per [emitError] call
    site; [errorMessage] renders the message the source builds. *)
Inductive ParseError :=
| UnexpectedCharOutside (char : ascii)
| ClosingWithoutOpening
| WhitespaceAfterOpen
| WhitespaceInParamTag
| UnexpectedTagStructure (tag : string)
| InvalidToolName (tag : string)
| InvalidParamName (tag tool : string)
| InvalidTagName (tag node : string)
| UnexpectedCharIn (char : ascii) (node : string)
| MismatchedClosingTag (expected got : string) (complete : bool).

Definition dquote : string := str1 (ascii_of_nat 34).

Definition errorMessage (e : ParseError) : string :=
  match e with
  | UnexpectedCharOutside c =>
      "Unexpected character " +:+ dquote +:+ str1 c +:+ dquote
      +:+ " outside of allowed text content"
  | ClosingWithoutOpening => "Closing tag without matching opening tag"
  | WhitespaceAfterOpen => "Unexpected whitespace after '<'"
  | WhitespaceInParamTag => "Unexpected whitespace in parameter tag"
  | UnexpectedTagStructure tag => "Unexpected tag structure for " +:+ tag
  | InvalidToolName tag => "Invalid tool name: " +:+ tag
  | InvalidParamName tag tool =>
      "Invalid param name: " +:+ tag +:+ " for tool " +:+ tool
  | InvalidTagName tag node => "Invalid tag name: " +:+ tag +:+ " in " +:+ node
  | UnexpectedCharIn c node =>
      "Unexpected character " +:+ dquote +:+ str1 c +:+ dquote
      +:+ " in " +:+ node +:+ " context"
  | MismatchedClosingTag expected got complete =>
      "Mismatched closing tag: expected </" +:+ expected +:+ "> but got </"
      +:+ got +:+ (if complete then ">" else "")
  end.

Inductive ParserEvent :=
| BlockEvent (block : AssistantMessageContent)
| ErrorEvent (error : ParseError).

(** ** Parser context *)

Inductive ParseStateEnum := Text | TagOpening | TagName | TextContent | ClosingTag.

Record ParserContext := {
  textBuffer : string;
  tagBuffer : string;
  paramValueBuffer : string;
  closingTagBuffer : string;
  currentNode : NodeSchema;
  currentToolUse : option ToolUse;
  currentParamName : option string;
  options : StreamingToolParserOptions
}.

Definition set_textBuffer (v : string) (c : ParserContext) : ParserContext :=
  {| textBuffer := v; tagBuffer := tagBuffer c;
     paramValueBuffer := paramValueBuffer c;
     closingTagBuffer := closingTagBuffer c; currentNode := currentNode c;
     currentToolUse := currentToolUse c;
     currentParamName := currentParamName c; options := options c |}.

Definition set_tagBuffer (v : string) (c : ParserContext) : ParserContext :=
  {| textBuffer := textBuffer c; tagBuffer := v;
     paramValueBuffer := paramValueBuffer c;
     closingTagBuffer := closingTagBuffer c; currentNode := currentNode c;
     currentToolUse := currentToolUse c;
     currentParamName := currentParamName c; options := options c |}.

Definition set_paramValueBuffer (v : string) (c : ParserContext) : ParserContext :=
  {| textBuffer := textBuffer c; tagBuffer := tagBuffer c;
     paramValueBuffer := v;
     closingTagBuffer := closingTagBuffer c; currentNode := currentNode c;
     currentToolUse := currentToolUse c;
     currentParamName := currentParamName c; options := options c |}.

Definition set_closingTagBuffer (v : string) (c : ParserContext) : ParserContext :=
  {| textBuffer := textBuffer c; tagBuffer := tagBuffer c;
     paramValueBuffer := paramValueBuffer c;
     closingTagBuffer := v; currentNode := currentNode c;
     currentToolUse := currentToolUse c;
     currentParamName := currentParamName c; options := options c |}.

Definition set_currentNode (v : NodeSchema) (c : ParserContext) : ParserContext :=
  {| textBuffer := textBuffer c; tagBuffer := tagBuffer c;
     paramValueBuffer := paramValueBuffer c;
     closingTagBuffer := closingTagBuffer c; currentNode := v;
     currentToolUse := currentToolUse c;
     currentParamName := currentParamName c; options := options c |}.

Definition set_currentToolUse (v : option ToolUse) (c : ParserContext) : ParserContext :=
  {| textBuffer := textBuffer c; tagBuffer := tagBuffer c;
     paramValueBuffer := paramValueBuffer c;
     closingTagBuffer := closingTagBuffer c; currentNode := currentNode c;
     currentToolUse := v;
     currentParamName := currentParamName c; options := options c |}.

Definition set_currentParamName (v : option string) (c : ParserContext) : ParserContext :=
  {| textBuffer := textBuffer c; tagBuffer := tagBuffer c;
     paramValueBuffer := paramValueBuffer c;
     closingTagBuffer := closingTagBuffer c; currentNode := currentNode c;
     currentToolUse := currentToolUse c;
     currentParamName := v; options := options c |}.

(** The constructor of [ParserContext]. *)
Definition newContext (opts : StreamingToolParserOptions) : ParserContext :=
  {| textBuffer := ""; tagBuffer := ""; paramValueBuffer := "";
     closingTagBuffer := ""; currentNode := RootNode;
     currentToolUse := None; currentParamName := None; options := opts |}.

Definition findChildSchema (context : ParserContext) (tagName : string)
    : option NodeSchema :=
  List.find (fun child => String.eqb (nodeName child) tagName)
            (children (options context) (currentNode context)).

Definition hasChildSchemaWithPrefix (context : ParserContext) (pre : string)
    : bool :=
  existsb (fun child => String.prefix pre (nodeName child))
          (children (options context) (currentNode context)).

Definition canContainText (context : ParserContext) : bool :=
  allowedTextContent (currentNode context).

Definition resetParamState (context : ParserContext) : ParserContext :=
  set_paramValueBuffer "" (set_currentParamName None context).

Definition resetToolState (context : ParserContext) : ParserContext :=
  set_closingTagBuffer ""
    (set_tagBuffer "" (resetParamState (set_currentToolUse None context))).

(** [if (context.currentParamName)]: present and not the empty string. *)
Definition paramNameSet (context : ParserContext) : bool :=
  match currentParamName context with
  | Some p => truthy p
  | None => false
  end.

Definition storeCurrentParamValue (context : ParserContext) : ParserContext :=
  match currentToolUse context, currentParamName context with
  | Some tu, Some p =>
      if truthy p then
        set_currentToolUse
          (Some {| name := name tu;
                   params := <[p := paramValueBuffer context]> (params tu);
                   partial := partial tu |}) context
      else context
  | _, _ => context
  end.

(** ** The five states

    Each [processChar] returns the updated context, the next state and the
    events it emitted, in order. *)

Definition Step := (ParserContext * ParseStateEnum * list ParserEvent)%type.

Definition TextState_processChar (context : ParserContext) (char : ascii) : Step :=
  if Ascii.eqb char "<" then
    let '(context, events) :=
      if truthy (textBuffer context) then
        let normalizedText := trim (textBuffer context) in
        if truthy normalizedText then
          (set_textBuffer "" context,
           [BlockEvent (TextContentBlock normalizedText false)])
        else (context, [])
      else (context, []) in
    (set_tagBuffer "" context, TagOpening, events)
  else if negb (allowedTextContent (currentNode context)) then
    if negb (isWhitespace char) then
      (set_textBuffer (textBuffer context +:+ str1 char) context, Text,
       [ErrorEvent (UnexpectedCharOutside char)])
    else (context, Text, [])
  else (set_textBuffer (textBuffer context +:+ str1 char) context, Text, []).

Definition TagOpeningState_processChar (context : ParserContext) (char : ascii) : Step :=
  if Ascii.eqb char "/" then
    match parent (currentNode context) with
    | Some _ => (set_closingTagBuffer "" context, ClosingTag, [])
    | None =>
        if relaxedMode (options context) then
          (set_textBuffer (textBuffer context +:+ "</") context, Text, [])
        else
          (set_textBuffer (textBuffer context +:+ "</") context, Text,
           [ErrorEvent ClosingWithoutOpening])
    end
  else if isWhitespace char then
    if relaxedMode (options context) then
      (set_textBuffer (textBuffer context +:+ "<" +:+ str1 char) context, Text, [])
    else
      (set_textBuffer (textBuffer context +:+ "<" +:+ str1 char) context, Text,
       [ErrorEvent WhitespaceAfterOpen])
  else (set_tagBuffer (str1 char) context, TagName, []).

(** [node.parent === context.rootNode] *)
Definition parentIsRoot (n : NodeSchema) : bool :=
  match parent n with
  | Some RootNode => true
  | _ => false
  end.

Definition handleValidTag (context : ParserContext) (matchedSchema : NodeSchema) : Step :=
  let context := set_currentNode matchedSchema context in
  match parent matchedSchema with
  | Some RootNode =>
      (set_tagBuffer ""
         (set_currentToolUse
            (Some {| name := nodeName matchedSchema; params := ∅; partial := true |})
            context),
       TextContent, [])
  | Some _ =>
      (set_tagBuffer ""
         (set_paramValueBuffer ""
            (set_currentParamName (Some (nodeName matchedSchema)) context)),
       TextContent, [])
  | None =>
      (context, Text, [ErrorEvent (UnexpectedTagStructure (nodeName matchedSchema))])
  end.

Definition handleInvalidTag (context : ParserContext) (char : ascii) : Step :=
  let isAtRootLevel := isRoot (currentNode context) in
  let literal := "<" +:+ tagBuffer context +:+ str1 char in
  let toText := set_tagBuffer "" (set_textBuffer (textBuffer context +:+ literal) context) in
  let toParamValue :=
    set_tagBuffer "" (set_paramValueBuffer (paramValueBuffer context +:+ literal) context) in
  let fallback := (resetToolState (set_currentNode RootNode toText), Text, []) in
  if relaxedMode (options context) then
    if isAtRootLevel then (toText, Text, [])
    else if canContainText context then (toParamValue, TextContent, [])
    else fallback
  else
    if isAtRootLevel then
      (toText, Text, [ErrorEvent (InvalidToolName (tagBuffer context))])
    else if parentIsRoot (currentNode context) then
      (toParamValue, TextContent,
       [ErrorEvent (InvalidParamName (tagBuffer context) (nodeName (currentNode context)))])
    else if canContainText context then
      (toParamValue, TextContent,
       [ErrorEvent (InvalidTagName (tagBuffer context) (nodeName (currentNode context)))])
    else fallback.

Definition TagNameState_processChar (context : ParserContext) (char : ascii) : Step :=
  if negb (Ascii.eqb char ">") && negb (isWhitespace char) then
    let context := set_tagBuffer (tagBuffer context +:+ str1 char) context in
    if negb (hasChildSchemaWithPrefix context (tagBuffer context)) then
      handleInvalidTag context char
    else (context, TagName, [])
  else if Ascii.eqb char ">" || isWhitespace char then
    match findChildSchema context (tagBuffer context) with
    | Some exactMatch =>
        if Ascii.eqb char ">" then handleValidTag context exactMatch
        else if isWhitespace char then
          let '(context', next, events) := handleInvalidTag context char in
          (context', next, ErrorEvent WhitespaceInParamTag :: events)
        else (context, TagName, [])
    | None => handleInvalidTag context char
    end
  else (context, TagName, []).

Definition TextContentState_processChar (context : ParserContext) (char : ascii) : Step :=
  if Ascii.eqb char "<" then (set_tagBuffer "" context, TagOpening, [])
  else if paramNameSet context then
    (set_paramValueBuffer (paramValueBuffer context +:+ str1 char) context, TextContent, [])
  else if canContainText context then
    (set_textBuffer (textBuffer context +:+ str1 char) context, TextContent, [])
  else if isWhitespace char then (context, TextContent, [])
  else
    (set_textBuffer (textBuffer context +:+ str1 char) context, TextContent,
     [ErrorEvent (UnexpectedCharIn char (nodeName (currentNode context)))]).

(** The recovery shared by both mismatch sites of [ClosingTagState]:
    [literal] is [</name] during the prefix check and [</name>] at the
    closing fence; only the prefix-check site clears [closingTagBuffer]. *)
Definition mismatchRecovery (context : ParserContext) (literal : string)
    (complete : bool) : Step :=
  let clear c := if complete then c else set_closingTagBuffer "" c in
  let toParamValue :=
    clear (set_paramValueBuffer (paramValueBuffer context +:+ literal) context) in
  let toText := clear (set_textBuffer (textBuffer context +:+ literal) context) in
  if relaxedMode (options context) && canContainText context then
    if paramNameSet context then (toParamValue, TextContent, [])
    else (toText, Text, [])
  else
    let error :=
      ErrorEvent (MismatchedClosingTag (nodeName (currentNode context))
                                       (closingTagBuffer context) complete) in
    if canContainText context then
      if paramNameSet context then (toParamValue, TextContent, [error])
      else (toText, Text, [error])
    else (resetToolState (set_currentNode RootNode toText), Text, [error]).

Definition handleMismatchedClosingTag (context : ParserContext) : Step :=
  mismatchRecovery context ("</" +:+ closingTagBuffer context) false.

(** [context.currentParamName === tagName] *)
Definition paramNameIs (context : ParserContext) (tagName : string) : bool :=
  match currentParamName context with
  | Some p => String.eqb p tagName
  | None => false
  end.

(** [context.currentNode.parent!]: the assertion holds whenever the parser
    is in [ClosingTag], which is entered only below the root (lemma
    [closingTag_below_root]); at the root the node is left in place. *)
Definition parentOrSelf (n : NodeSchema) : NodeSchema :=
  match parent n with
  | Some p => p
  | None => n
  end.

Definition processClosingTag (context : ParserContext) : Step :=
  let tagName := closingTagBuffer context in
  if String.eqb (nodeName (currentNode context)) tagName then
    let '(context, events) :=
      if paramNameIs context tagName then
        (resetParamState (storeCurrentParamValue context), [])
      else
        match currentToolUse context with
        | Some tu =>
            if String.eqb (name tu) tagName then
              (resetToolState context,
               [BlockEvent (ToolUseBlock {| name := name tu; params := params tu;
                                            partial := false |})])
            else (context, [])
        | None => (context, [])
        end in
    let context :=
      set_closingTagBuffer ""
        (set_currentNode (parentOrSelf (currentNode context)) context) in
    if isRoot (currentNode context) then (context, Text, events)
    else (context, TextContent, events)
  else mismatchRecovery context ("</" +:+ tagName +:+ ">") true.

Definition ClosingTagState_processChar (context : ParserContext) (char : ascii) : Step :=
  if Ascii.eqb char ">" then processClosingTag context
  else
    let context := set_closingTagBuffer (closingTagBuffer context +:+ str1 char) context in
    let currentNodeName := nodeName (currentNode context) in
    let bufferPrefix :=
      substring 0 (String.length (closingTagBuffer context)) currentNodeName in
    if negb (String.eqb bufferPrefix (closingTagBuffer context)) then
      handleMismatchedClosingTag context
    else (context, ClosingTag, []).

(** ** The driver *)

Record StreamingToolParser := {
  context : ParserContext;
  currentState : ParseStateEnum
}.

(** [new StreamingToolParser(options)] *)
Definition newParser (opts : StreamingToolParserOptions) : StreamingToolParser :=
  {| context := newContext opts; currentState := Text |}.

(** [this.currentState.processChar(this.context, char)] *)
Definition processChar (state : ParseStateEnum) (context : ParserContext)
    (char : ascii) : Step :=
  match state with
  | Text => TextState_processChar context char
  | TagOpening => TagOpeningState_processChar context char
  | TagName => TagNameState_processChar context char
  | TextContent => TextContentState_processChar context char
  | ClosingTag => ClosingTagState_processChar context char
  end.

Definition stepChar (parser : StreamingToolParser) (char : ascii)
    : StreamingToolParser * list ParserEvent :=
  let '(context', next, events) :=
    processChar (currentState parser) (context parser) char in
  ({| context := context'; currentState := next |}, events).

(** The loop [for (const char of chunk)]. *)
Fixpoint processChars (parser : StreamingToolParser) (chunk : string)
    : StreamingToolParser * list ParserEvent :=
  match chunk with
  | EmptyString => (parser, [])
  | String char rest =>
      let '(parser', events) := stepChar parser char in
      let '(parser'', events') := processChars parser' rest in
      (parser'', events ++ events')
  end.

Definition isText (s : ParseStateEnum) : bool :=
  match s with Text => true | _ => false end.

Definition isTextContent (s : ParseStateEnum) : bool :=
  match s with TextContent => true | _ => false end.

Definition emitPartialAtChunkEnd (parser : StreamingToolParser)
    : StreamingToolParser * list ParserEvent :=
  let currentStateType := currentState parser in
  let ctx := context parser in
  if isText currentStateType && truthy (textBuffer ctx) then
    let normalizedText := trim (textBuffer ctx) in
    if truthy normalizedText then
      (parser, [BlockEvent (TextContentBlock normalizedText true)])
    else (parser, [])
  else
    match currentToolUse ctx with
    | Some _ =>
        let ctx :=
          if isTextContent currentStateType && negb (isRoot (currentNode ctx))
          then storeCurrentParamValue ctx else ctx in
        match currentToolUse ctx with
        | Some tu =>
            ({| context := ctx; currentState := currentStateType |},
             [BlockEvent (ToolUseBlock {| name := name tu; params := params tu;
                                          partial := true |})])
        | None => ({| context := ctx; currentState := currentStateType |}, [])
        end
    | None => (parser, [])
    end.

Definition processChunk (parser : StreamingToolParser) (chunk : string)
    : StreamingToolParser * list ParserEvent :=
  let '(parser', events) := processChars parser chunk in
  let '(parser'', events') := emitPartialAtChunkEnd parser' in
  (parser'', events ++ events').

Definition finalize (parser : StreamingToolParser)
    : StreamingToolParser * list ParserEvent :=
  let finalStateType := currentState parser in
  let ctx := context parser in
  let '(ctx, events) :=
    if isText finalStateType && truthy (textBuffer ctx) then
      let normalizedText := trim (textBuffer ctx) in
      if truthy normalizedText then
        (set_textBuffer "" ctx, [BlockEvent (TextContentBlock normalizedText false)])
      else (ctx, [])
    else (ctx, []) in
  ({| context := set_currentNode RootNode (set_textBuffer "" (resetToolState ctx));
      currentState := Text |},
   events).

(** Feeding a list of chunks, one [processChunk] call each. *)
Fixpoint processChunks (parser : StreamingToolParser) (chunks : list string)
    : StreamingToolParser * list ParserEvent :=
  match chunks with
  | [] => (parser, [])
  | chunk :: rest =>
      let '(parser', events) := processChunk parser chunk in
      let '(parser'', events') := processChunks parser' rest in
      (parser'', events ++ events')
  end.

(** A whole session: the chunks, then [finalize]. *)
Definition runSession (parser : StreamingToolParser) (chunks : list string)
    : StreamingToolParser * list ParserEvent :=
  let '(parser', events) := processChunks parser chunks in
  let '(parser'', events') := finalize parser' in
  (parser'', events ++ events').

Definition readFileOptions (relaxed : bool) : StreamingToolParserOptions :=
  {| validToolNames := ["read_file"];
     validParamNamesByTool := {[ "read_file" := ["path"; "start_line"; "end_line"] ]};
     relaxedMode := relaxed |}.


(** ** Predicates used in the statements *)

Definition noLeadingWhitespace (s : string) : Prop :=
  match s with
  | EmptyString => True
  | String c _ => isWhitespace c = false
  end.

(** A text block whose content is non-empty and is its own trim. *)
Definition trimmedText (e : ParserEvent) : Prop :=
  match e with
  | BlockEvent (TextContentBlock content _) =>
      content <> EmptyString /\ trim content = content
  | _ => True
  end.

(** The last tool-use block of an event sequence, if any. *)
Fixpoint lastToolUse (events : list ParserEvent) : option ToolUse :=
  match events with
  | [] => None
  | e :: rest =>
      match lastToolUse rest with
      | Some tu => Some tu
      | None =>
          match e with
          | BlockEvent (ToolUseBlock tu) => Some tu
          | _ => None
          end
      end
  end.

Definition isToolUseEvent (e : ParserEvent) : bool :=
  match e with
  | BlockEvent (ToolUseBlock _) => true
  | _ => false
  end.

(** The parser sits in [Text] with a non-empty [textBuffer]: the first
    branch of [emitPartialAtChunkEnd] and of [finalize]. *)
Definition pendingText (parser : StreamingToolParser) : bool :=
  isText (currentState parser) && truthy (textBuffer (context parser)).

(** The snapshot [emitPartialAtChunkEnd] publishes for an open tool-use:
    the working parameters, with the value being read stored first when
    the parser is inside a parameter value. *)
Definition snapshotOf (parser : StreamingToolParser) (tu : ToolUse) : ToolUse :=
  {| name := name tu;
     params :=
       if isTextContent (currentState parser)
          && negb (isRoot (currentNode (context parser)))
       then match currentParamName (context parser) with
            | Some p =>
                if truthy p
                then <[p := paramValueBuffer (context parser)]> (params tu)
                else params tu
            | None => params tu
            end
       else params tu;
     partial := true |}.

(** The parser states that can arise: from construction, by consuming a
    character, at a chunk end, and after [finalize].  These are the
    instants between two characters and the chunk boundaries. *)
Inductive reachable (opts : StreamingToolParserOptions) : StreamingToolParser -> Prop :=
| reachable_new : reachable opts (newParser opts)
| reachable_char parser char :
    reachable opts parser -> reachable opts (stepChar parser char).1
| reachable_chunkEnd parser :
    reachable opts parser -> reachable opts (emitPartialAtChunkEnd parser).1
| reachable_finalize parser :
    reachable opts parser -> reachable opts (finalize parser).1.

Definition isErrorEvent (e : ParserEvent) : bool :=
  match e with
  | ErrorEvent _ => true
  | BlockEvent _ => false
  end.

(** The states reached without any error event having been emitted. *)
Inductive quiet (opts : StreamingToolParserOptions) : StreamingToolParser -> Prop :=
| quiet_new : quiet opts (newParser opts)
| quiet_char parser char :
    quiet opts parser ->
    forallb (fun e => negb (isErrorEvent e)) (stepChar parser char).2 = true ->
    quiet opts (stepChar parser char).1
| quiet_chunkEnd parser :
    quiet opts parser -> quiet opts (emitPartialAtChunkEnd parser).1
| quiet_finalize parser :
    quiet opts parser -> quiet opts (finalize parser).1.

(** Coherence of the current node with the tool-use and parameter being
    assembled, and of the state with the node and the tag buffer. *)
Definition coherent (parser : StreamingToolParser) : Prop :=
  let ctx := context parser in
  match currentNode ctx with
  | RootNode =>
      currentToolUse ctx = None /\ currentParamName ctx = None
      /\ paramValueBuffer ctx = EmptyString
  | ToolNode t _ =>
      (exists tu, currentToolUse ctx = Some tu /\ name tu = t)
      /\ currentParamName ctx = None
  | ParamNode t _ p =>
      (exists tu, currentToolUse ctx = Some tu /\ name tu = t)
      /\ currentParamName ctx = Some p /\ p <> EmptyString
  end
  /\ match currentState parser with
     | ClosingTag | TextContent => currentNode ctx <> RootNode
     | TagName => tagBuffer ctx <> EmptyString
     | _ => True
     end.

(** Events that are not partial snapshots: errors and final blocks. *)
Definition isPartialBlock (e : ParserEvent) : bool :=
  match e with
  | BlockEvent (TextContentBlock _ p) => p
  | BlockEvent (ToolUseBlock tu) => partial tu
  | ErrorEvent _ => false
  end.

Definition nonPartial (events : list ParserEvent) : list ParserEvent :=
  List.filter (fun e => negb (isPartialBlock e)) events.

(** The blocks with [partial = false], in emission order. *)
Fixpoint finalBlocks (events : list ParserEvent) : list AssistantMessageContent :=
  match events with
  | [] => []
  | BlockEvent b :: rest =>
      if isPartialBlock (BlockEvent b) then finalBlocks rest
      else b :: finalBlocks rest
  | ErrorEvent _ :: rest => finalBlocks rest
  end.

(** [q] is [p] except that the working parameter map may hold a stale value
    for the parameter currently being read (left there by a chunk-end
    snapshot); storing the parameter makes both maps equal again. *)
Definition stale (p q : StreamingToolParser) : Prop :=
  q = p
  \/ exists tu tu' pn,
      currentToolUse (context p) = Some tu
      /\ currentParamName (context p) = Some pn
      /\ truthy pn = true
      /\ name tu' = name tu
      /\ partial tu' = partial tu
      /\ (forall v, <[pn := v]> (params tu') = <[pn := v]> (params tu))
      /\ q = {| context := set_currentToolUse (Some tu') (context p);
                currentState := currentState p |}.

(** The character and string primitives stay folded during case analysis. *)
Arguments isWhitespace : simpl never.
Arguments trim : simpl never.
Arguments Ascii.eqb : simpl never.
Arguments String.eqb : simpl never.
Arguments String.prefix : simpl never.
Arguments String.substring : simpl never.
Arguments String.length : simpl never.
Arguments String.append : simpl never.

(** Outside [Text] the text buffer holds whitespace only, and [Text] is
    occupied only at the root: the shape of the states of an error-free
    strict run. *)
Definition textSettled (parser : StreamingToolParser) : Prop :=
  match currentState parser with
  | Text => currentNode (context parser) = RootNode
  | _ => trim (textBuffer (context parser)) = EmptyString
  end.

(** The character stream carried by a list of chunks. *)
Definition streamOf (chunks : list string) : string :=
  fold_right String.append EmptyString chunks.

(** The same context under the other operating mode. *)
Definition withMode (relaxed : bool) (ctx : ParserContext) : ParserContext :=
  {| textBuffer := textBuffer ctx; tagBuffer := tagBuffer ctx;
     paramValueBuffer := paramValueBuffer ctx;
     closingTagBuffer := closingTagBuffer ctx; currentNode := currentNode ctx;
     currentToolUse := currentToolUse ctx;
     currentParamName := currentParamName ctx;
     options := {| validToolNames := validToolNames (options ctx);
                   validParamNamesByTool := validParamNamesByTool (options ctx);
                   relaxedMode := relaxed |} |}.

(** The errors that relaxed mode can still emit: the two
    unexpected-character errors, whitespace after a complete tag name, a
    tag structure error and a mismatched closing tag. *)
Definition relaxedModeEvent (e : ParserEvent) : bool :=
  match e with
  | ErrorEvent (InvalidToolName _) | ErrorEvent (InvalidParamName _ _)
  | ErrorEvent (InvalidTagName _ _) | ErrorEvent ClosingWithoutOpening
  | ErrorEvent WhitespaceAfterOpen => false
  | _ => true
  end.

(** What relaxed mode keeps of the events of a strict step taken at
    [ctx]: the blocks, the errors relaxed mode never suppresses, and a
    mismatched closing tag when the current node accepts no text. *)
Definition keptInRelaxed (ctx : ParserContext) (e : ParserEvent) : bool :=
  match e with
  | ErrorEvent (MismatchedClosingTag _ _ _) => negb (canContainText ctx)
  | _ => relaxedModeEvent e
  end.

Definition isInvalidParamName (e : ParserEvent) : bool :=
  match e with
  | ErrorEvent (InvalidParamName _ _) => true
  | _ => false
  end.


(** The strings a block carries: its text content, or its parameter values. *)
Definition blockStrings (b : AssistantMessageContent) : list string :=
  match b with
  | TextContentBlock content _ => [content]
  | ToolUseBlock tu => (map_to_list (params tu)).*2
  end.

Fixpoint eventStrings (events : list ParserEvent) : list string :=
  match events with
  | [] => []
  | BlockEvent b :: rest => blockStrings b ++ eventStrings rest
  | ErrorEvent _ :: rest => eventStrings rest
  end.

(** [needle] occurs in [s]. *)
Fixpoint occursIn (needle s : string) : bool :=
  String.prefix needle s
  || match s with
     | EmptyString => false
     | String _ rest => occursIn needle rest
     end.

(** The chunk holds no opening fence ['<']. *)
Fixpoint noFence (s : string) : bool :=
  match s with
  | EmptyString => true
  | String c rest => negb (Ascii.eqb c "<") && noFence rest
  end.

(** The partial text snapshots a fence-free stream produces, one per chunk
    whose accumulated text is not blank. *)
Fixpoint textSnapshots (buffered : string) (chunks : list string) : list ParserEvent :=
  match chunks with
  | [] => []
  | chunk :: rest =>
      (if truthy (trim (buffered +:+ chunk))
       then [BlockEvent (TextContentBlock (trim (buffered +:+ chunk)) true)]
       else [])
      ++ textSnapshots (buffered +:+ chunk) rest
  end.

(** ** Rendering a tool call *)

(** The characters a tag name may consist of for the parser to read it
    back: neither the closing fence nor whitespace. *)
Fixpoint nameChars (s : string) : bool :=
  match s with
  | EmptyString => true
  | String c rest => negb (Ascii.eqb c ">") && negb (isWhitespace c) && nameChars rest
  end.

(** A usable tag name: not empty and not starting with ['/']. *)
Definition tagNameOk (s : string) : bool :=
  match s with
  | EmptyString => false
  | String c _ => negb (Ascii.eqb c "/") && nameChars s
  end.

Definition openTag (n : string) : string := "<" +:+ n +:+ ">".
Definition closeTag (n : string) : string := "</" +:+ n +:+ ">".

Definition renderParam (arg : string * string) : string :=
  openTag arg.1 +:+ arg.2 +:+ closeTag arg.1.

(** [<tool><p1>v1</p1>...<pn>vn</pn></tool>] *)
Definition renderTool (tool : string) (args : list (string * string)) : string :=
  openTag tool +:+ streamOf (map renderParam args) +:+ closeTag tool.

(** The parameter object after storing the arguments in order. *)
Definition storeAll (args : list (string * string)) (m : gmap string string)
    : gmap string string :=
  fold_left (fun m arg => <[arg.1 := arg.2]> m) args m.

(** The context inside an open tool, between two parameters. *)
Definition insideTool (opts : StreamingToolParserOptions) (tb t : string)
    (ps : list string) (tu : ToolUse) : ParserContext :=
  {| textBuffer := tb; tagBuffer := ""; paramValueBuffer := "";
     closingTagBuffer := ""; currentNode := ToolNode t ps;
     currentToolUse := Some tu; currentParamName := None; options := opts |}.

(** The tool-use a rendered call stands for. *)
Definition toolUseOf (call : string * list (string * string)) : ToolUse :=
  {| name := call.1; params := storeAll call.2 ∅; partial := false |}.

(** The call names a tool of the schema, its arguments name parameters of
    that tool, the names can be read back as tags and no value holds a
    ['<']. *)
Definition callOk (opts : StreamingToolParserOptions)
    (call : string * list (string * string)) : Prop :=
  call.1 ∈ validToolNames opts
  /\ tagNameOk call.1 = true
  /\ Forall (fun arg =>
               arg.1 ∈ default [] (validParamNamesByTool opts !! call.1)
               /\ tagNameOk arg.1 = true /\ noFence arg.2 = true) call.2.

(** ** Honouring the schema *)

(** The parameter names registered for a tool, none when the map has no
    entry for it. *)
Definition paramsOfTool (opts : StreamingToolParserOptions) (tool : string) : list string :=
  default [] (validParamNamesByTool opts !! tool).

(** The tool-use names a tool of the schema and only holds parameters
    registered for that tool. *)
Definition toolUseInSchema (opts : StreamingToolParserOptions) (tu : ToolUse) : Prop :=
  name tu ∈ validToolNames opts
  /\ forall key, is_Some (params tu !! key) -> key ∈ paramsOfTool opts (name tu).

Definition eventInSchema (opts : StreamingToolParserOptions) (e : ParserEvent) : Prop :=
  match e with
  | BlockEvent (ToolUseBlock tu) => toolUseInSchema opts tu
  | _ => True
  end.

(** The current node is a node of the schema built from the options, and
    the tool-use being assembled stays within the schema. *)
Definition withinSchema (opts : StreamingToolParserOptions)
    (parser : StreamingToolParser) : Prop :=
  options (context parser) = opts
  /\ match currentNode (context parser) with
     | RootNode => True
     | ToolNode t ps => t ∈ validToolNames opts /\ ps = paramsOfTool opts t
     | ParamNode t ps p =>
         t ∈ validToolNames opts /\ ps = paramsOfTool opts t /\ p ∈ ps
     end
  /\ forall tu, currentToolUse (context parser) = Some tu -> toolUseInSchema opts tu.

(** * The superfluous-duplicated-line engine

    The version of [SuperfluousDuplicatedLineEngine] that returns the
    number of lines to consume (the source file whose [process] has return
    type [number]): a pure function of three strings and a line number.
    Line numbers and counts are integers. *)

Module SuperfluousDuplicatedLineEngine.

Definition LF : ascii := ascii_of_nat 10.
Definition CR : ascii := ascii_of_nat 13.

(** [s.split(/\r?\n/)]: the pieces between line breaks, a line break being
    a line feed or a carriage return directly followed by a line feed. *)
Fixpoint splitLines (s : string) : list string :=
  match s with
  | EmptyString => [EmptyString]
  | String c rest =>
      if Ascii.eqb c LF then EmptyString :: splitLines rest
      else
        let continue :=
          match splitLines rest with
          | line :: lines => String c line :: lines
          | [] => [str1 c]
          end in
        match rest with
        | String d rest' =>
            if Ascii.eqb c CR && Ascii.eqb d LF
            then EmptyString :: splitLines rest'
            else continue
        | EmptyString => continue
        end
  end.

(** [lines.join("\n")] *)
Fixpoint joinLines (lines : list string) : string :=
  match lines with
  | [] => EmptyString
  | [line] => line
  | line :: rest => line +:+ String LF (joinLines rest)
  end.

(** [lines[index]], [None] standing for [undefined]. *)
Definition lineAt (lines : list string) (index : Z) : option string :=
  if (index <? 0)%Z then None else lines !! Z.to_nat index.

(** The guard of the loop body: both lines are present and non-empty and
    agree once trimmed. *)
Definition linesMatch (lineInReplace lineInOriginal : option string) : bool :=
  match lineInReplace, lineInOriginal with
  | Some r, Some o => truthy r && truthy o && String.eqb (trim r) (trim o)
  | _, _ => false
  end.

(** The [for] loop: [remaining] iterations are left, [i] is the loop index
    and the running value of [matchingLinesCount]; the loop breaks at the
    first pair of lines that does not match. *)
Fixpoint countMatching (replaceLines originalLines : list string)
    (searchLength searchEndIndex : Z) (remaining : nat) (i : Z) : Z :=
  match remaining with
  | O => i
  | S remaining' =>
      let replaceLineIndex := (searchLength + i)%Z in
      let originalLineIndex := (searchEndIndex + i)%Z in
      if linesMatch (lineAt replaceLines replaceLineIndex)
                    (lineAt originalLines originalLineIndex)
      then countMatching replaceLines originalLines searchLength searchEndIndex
                         remaining' (i + 1)
      else i
  end.

Record SearchReplaceContext := {
  startLine : Z;
  searchContent : string;
  replaceContent : string
}.

Definition process (originalContent : string) (context : SearchReplaceContext) : Z :=
  let searchLines := splitLines (searchContent context) in
  let replaceLines := splitLines (replaceContent context) in
  let originalLines := splitLines originalContent in
  let searchLength := Z.of_nat (List.length searchLines) in
  let replaceLength := Z.of_nat (List.length replaceLines) in
  let originalLength := Z.of_nat (List.length originalLines) in
  if (0 <? searchLength)%Z && (searchLength <? replaceLength)%Z
     && (0 <? startLine context)%Z then
    let firstPartOfReplace :=
      joinLines (firstn (List.length searchLines) replaceLines) in
    let isFirstPartSimilar := String.eqb firstPartOfReplace (searchContent context) in
    if isFirstPartSimilar && (searchLength <? replaceLength)%Z then
      let searchEndIndex := (startLine context - 1 + searchLength)%Z in
      let maxPossibleMatches :=
        Z.min (replaceLength - searchLength) (originalLength - searchEndIndex) in
      let matchingLinesCount :=
        countMatching replaceLines originalLines searchLength searchEndIndex
                      (Z.to_nat maxPossibleMatches) 0 in
      if (0 <? matchingLinesCount)%Z then matchingLinesCount else 0%Z
    else 0%Z
  else 0%Z.

End SuperfluousDuplicatedLineEngine.

(** The version of the engine in
    [src/core/diff/strategies/engines/superfluous-duplicated-line.engine.ts],
    whose [process] returns a search/replace context: it looks at one line
    only and, on a match, appends the original line to the search content.
    The two indexed lines exist whenever they are read (the guards before
    them say so, see [extended_lines_exist]); the [None] branches stand for
    the [TypeError] the source would raise otherwise. *)
Module SuperfluousDuplicatedLineEngineV0.
Import SuperfluousDuplicatedLineEngine.

Definition process (originalContent : string) (context : SearchReplaceContext)
    : SearchReplaceContext :=
  let searchLines := splitLines (searchContent context) in
  let replaceLines := splitLines (replaceContent context) in
  let originalLines := splitLines originalContent in
  let searchLength := Z.of_nat (List.length searchLines) in
  let replaceLength := Z.of_nat (List.length replaceLines) in
  let originalLength := Z.of_nat (List.length originalLines) in
  if (0 <? searchLength)%Z && (searchLength <? replaceLength)%Z
     && (0 <? startLine context)%Z then
    let firstPartOfReplace :=
      joinLines (firstn (List.length searchLines) replaceLines) in
    let isFirstPartSimilar := String.eqb firstPartOfReplace (searchContent context) in
    if isFirstPartSimilar && (searchLength <? replaceLength)%Z then
      let lineAfterSearchInReplace := lineAt replaceLines searchLength in
      let lineIndexInOriginal := (startLine context - 1 + searchLength)%Z in
      if (lineIndexInOriginal <? originalLength)%Z then
        let lineAfterSearchInOriginal := lineAt originalLines lineIndexInOriginal in
        match lineAfterSearchInReplace, lineAfterSearchInOriginal with
        | Some inReplace, Some inOriginal =>
            if String.eqb (trim inReplace) (trim inOriginal) then
              {| startLine := startLine context;
                 searchContent := searchContent context +:+ String LF inOriginal;
                 replaceContent := replaceContent context |}
            else context
        | _, _ => context
        end
      else context
    else context
  else context.

End SuperfluousDuplicatedLineEngineV0.

(** The number of leading positions at which two lists of lines hold
    non-empty lines that agree once trimmed. *)
Fixpoint commonRun (a b : list string) : nat :=
  match a, b with
  | x :: a', y :: b' =>
      if SuperfluousDuplicatedLineEngine.linesMatch (Some x) (Some y)
      then S (commonRun a' b') else O
  | _, _ => O
  end.

(** A line without line feed or carriage return. *)
Fixpoint cleanLine (s : string) : bool :=
  match s with
  | EmptyString => true
  | String c rest =>
      negb (Ascii.eqb c SuperfluousDuplicatedLineEngine.LF)
      && negb (Ascii.eqb c SuperfluousDuplicatedLineEngine.CR)
      && cleanLine rest
  end.

(** The chunk consists of whitespace only. *)
Fixpoint allWhitespace (s : string) : bool :=
  match s with
  | EmptyString => true
  | String c rest => isWhitespace c && allWhitespace rest
  end.

(** * Content preprocessing of [writeToFileTool]

    [preprocessContent] of [src/core/tools/writeToFileTool.ts].  The test
    [cline.api.getModel().id.includes("claude")] is the boolean
    [isClaudeModel], and [unescapeHtmlEntities], which lives in another
    file, is a parameter. *)

Module WriteToFileTool.
Import SuperfluousDuplicatedLineEngine.

(** [s.split("\n")] *)
Fixpoint splitNewlines (s : string) : list string :=
  match s with
  | EmptyString => [EmptyString]
  | String c rest =>
      if Ascii.eqb c LF then EmptyString :: splitNewlines rest
      else match splitNewlines rest with
           | line :: lines => String c line :: lines
           | [] => [str1 c]
           end
  end.

(** [s.endsWith(suffix)]: some tail of [s] is [suffix]. *)
Fixpoint endsWith (suffix s : string) : bool :=
  String.eqb suffix s
  || match s with
     | EmptyString => false
     | String _ rest => endsWith suffix rest
     end.

Definition fence : string := "```".

Definition preprocessContent (isClaudeModel : bool)
    (unescapeHtmlEntities : string -> string) (content : string) : string :=
  let processedContent := content in
  let processedContent :=
    if String.prefix fence processedContent
    then trim (joinLines (drop 1 (splitNewlines processedContent)))
    else processedContent in
  let processedContent :=
    if endsWith fence processedContent
    then let lines := splitNewlines processedContent in
         trim (joinLines (take (List.length lines - 1) lines))
    else processedContent in
  if negb isClaudeModel then unescapeHtmlEntities processedContent
  else processedContent.

End WriteToFileTool.

(** The content holds no line feed. *)
Fixpoint noLineFeed (s : string) : bool :=
  match s with
  | EmptyString => true
  | String c rest => negb (Ascii.eqb c SuperfluousDuplicatedLineEngine.LF) && noLineFeed rest
  end.

(** * Properties *)

(** ** Trimming *)

Lemma trimStart_noLeading s : noLeadingWhitespace (trimStart s).
Proof.
  induction s as [|c rest IH]; simpl; [exact I|].
  destruct (isWhitespace c) eqn:Hc; [exact IH | exact Hc].
Qed.

Lemma trimStart_fixed s : noLeadingWhitespace s -> trimStart s = s.
Proof. destruct s as [|c rest]; simpl; [reflexivity|]. intros ->. reflexivity. Qed.

Lemma trimEnd_noLeading s : noLeadingWhitespace s -> noLeadingWhitespace (trimEnd s).
Proof.
  destruct s as [|c rest]; simpl; [exact id|]. intros Hc.
  destruct (trimEnd rest); rewrite ?Hc; exact Hc.
Qed.

Lemma trimEnd_cons c s :
  trimEnd (String c s) =
  match trimEnd s with
  | EmptyString => if isWhitespace c then EmptyString else String c EmptyString
  | rest' => String c rest'
  end.
Proof. reflexivity. Qed.

Lemma trimEnd_idempotent s : trimEnd (trimEnd s) = trimEnd s.
Proof.
  induction s as [|c rest IH]; simpl; [reflexivity|].
  destruct (trimEnd rest) as [|d rest'] eqn:Hr.
  - destruct (isWhitespace c) eqn:Hc; simpl; rewrite ?Hc; reflexivity.
  - rewrite (trimEnd_cons c (String d rest')), IH. reflexivity.
Qed.

Lemma trim_idempotent s : trim (trim s) = trim s.
Proof.
  unfold trim.
  rewrite (trimStart_fixed (trimEnd (trimStart s))).
  - apply trimEnd_idempotent.
  - apply trimEnd_noLeading, trimStart_noLeading.
Qed.

Lemma truthy_nonempty s : truthy s = true <-> s <> EmptyString.
Proof. destruct s; simpl; split; congruence. Qed.

Lemma truthy_false s : truthy s = false <-> s = EmptyString.
Proof. destruct s; simpl; split; congruence. Qed.

(** ** Lifting a property of every emitted event to whole runs *)

Ltac unfold_states :=
  unfold processChar, TextState_processChar, TagOpeningState_processChar,
    TagNameState_processChar, TextContentState_processChar,
    ClosingTagState_processChar, handleValidTag, handleInvalidTag,
    handleMismatchedClosingTag, processClosingTag, mismatchRecovery,
    paramNameIs, paramNameSet, canContainText, parentIsRoot, parentOrSelf,
    resetToolState, resetParamState, storeCurrentParamValue in *.

Section EventProperty.
Variable P : ParserEvent -> Prop.
Hypothesis P_step : forall state ctx char, Forall P (processChar state ctx char).2.
Hypothesis P_chunkEnd : forall parser, Forall P (emitPartialAtChunkEnd parser).2.
Hypothesis P_finalize : forall parser, Forall P (finalize parser).2.

Lemma processChars_Forall chunk : forall parser,
  Forall P (processChars parser chunk).2.
Proof.
  induction chunk as [|char rest IH]; intros parser; simpl; [constructor|].
  unfold stepChar.
  pose proof (P_step (currentState parser) (context parser) char) as Hs.
  destruct (processChar _ _ char) as [[ctx' next] events].
  specialize (IH {| context := ctx'; currentState := next |}).
  destruct (processChars _ rest) as [parser'' events'].
  simpl in *. apply Forall_app; split; assumption.
Qed.

Lemma processChunk_Forall parser chunk : Forall P (processChunk parser chunk).2.
Proof.
  unfold processChunk.
  pose proof (processChars_Forall chunk parser) as Hc.
  destruct (processChars parser chunk) as [parser' events].
  pose proof (P_chunkEnd parser') as He.
  destruct (emitPartialAtChunkEnd parser') as [parser'' events'].
  simpl in *. apply Forall_app; split; assumption.
Qed.

Lemma processChunks_Forall chunks : forall parser,
  Forall P (processChunks parser chunks).2.
Proof.
  induction chunks as [|chunk rest IH]; intros parser; simpl; [constructor|].
  pose proof (processChunk_Forall parser chunk) as Hc.
  destruct (processChunk parser chunk) as [parser' events].
  specialize (IH parser').
  destruct (processChunks parser' rest) as [parser'' events'].
  simpl in *. apply Forall_app; split; assumption.
Qed.

Lemma runSession_Forall parser chunks : Forall P (runSession parser chunks).2.
Proof.
  unfold runSession.
  pose proof (processChunks_Forall chunks parser) as Hc.
  destruct (processChunks parser chunks) as [parser' events].
  pose proof (P_finalize parser') as Hf.
  destruct (finalize parser') as [parser'' events'].
  simpl in *. apply Forall_app; split; assumption.
Qed.
End EventProperty.

(** ** Text blocks are trimmed and non-empty *)

Lemma trimmedText_trim s b :
  truthy (trim s) = true -> trimmedText (BlockEvent (TextContentBlock (trim s) b)).
Proof.
  intros H. split; [apply truthy_nonempty, H | apply trim_idempotent].
Qed.

Lemma processChar_trimmedText state ctx char :
  Forall trimmedText (processChar state ctx char).2.
Proof.
  destruct state; unfold_states; repeat case_match; simplify_eq; simpl;
    repeat constructor;
    solve [apply truthy_nonempty; assumption | apply trim_idempotent].
Qed.

Lemma emitPartialAtChunkEnd_trimmedText parser :
  Forall trimmedText (emitPartialAtChunkEnd parser).2.
Proof.
  unfold emitPartialAtChunkEnd; repeat case_match; simplify_eq; simpl;
    repeat constructor;
    solve [apply truthy_nonempty; assumption | apply trim_idempotent].
Qed.

Lemma finalize_trimmedText parser : Forall trimmedText (finalize parser).2.
Proof.
  unfold finalize; repeat case_match; simplify_eq; simpl;
    repeat constructor;
    solve [apply truthy_nonempty; assumption | apply trim_idempotent].
Qed.

(** C8: every text block the parser emits, partial or final, in either
    mode and from any parser state, has a content that is non-empty and
    equal to its own trim. *)
Theorem text_blocks_are_trimmed (parser : StreamingToolParser) (chunks : list string) :
  Forall trimmedText (runSession parser chunks).2.
Proof.
  apply runSession_Forall.
  - exact processChar_trimmedText.
  - exact emitPartialAtChunkEnd_trimmedText.
  - exact finalize_trimmedText.
Qed.

(** ** Finalization *)

Lemma trim_truthy s : truthy (trim s) = true -> truthy s = true.
Proof. destruct s; [discriminate | reflexivity]. Qed.

Lemma finalize_parser parser :
  (finalize parser).1 = newParser (options (context parser)).
Proof. unfold finalize; repeat case_match; simplify_eq; reflexivity. Qed.

Lemma finalize_events parser :
  (finalize parser).2 =
  if isText (currentState parser) && truthy (trim (textBuffer (context parser)))
  then [BlockEvent (TextContentBlock (trim (textBuffer (context parser))) false)]
  else [].
Proof.
  unfold finalize. destruct (isText (currentState parser)); simpl.
  - destruct (truthy (textBuffer (context parser))) eqn:Ht.
    + destruct (truthy (trim _)); reflexivity.
    + apply truthy_false in Ht. rewrite Ht. reflexivity.
  - reflexivity.
Qed.

Lemma processChar_options state ctx char :
  options (processChar state ctx char).1.1 = options ctx.
Proof.
  destruct state; unfold_states; repeat case_match; simplify_eq; try reflexivity.
  all: unfold storeCurrentParamValue; repeat case_match; reflexivity.
Qed.

Lemma processChars_options chunk : forall parser,
  options (context (processChars parser chunk).1) = options (context parser).
Proof.
  induction chunk as [|char rest IH]; intros parser; simpl; [reflexivity|].
  unfold stepChar.
  pose proof (processChar_options (currentState parser) (context parser) char) as Hs.
  destruct (processChar _ _ char) as [[ctx' next] events].
  specialize (IH {| context := ctx'; currentState := next |}).
  destruct (processChars _ rest) as [parser'' events'].
  simpl in *. congruence.
Qed.

Lemma emitPartialAtChunkEnd_options parser :
  options (context (emitPartialAtChunkEnd parser).1) = options (context parser).
Proof.
  unfold emitPartialAtChunkEnd, storeCurrentParamValue.
  repeat case_match; simplify_eq; reflexivity.
Qed.

Lemma processChunk_options parser chunk :
  options (context (processChunk parser chunk).1) = options (context parser).
Proof.
  unfold processChunk.
  pose proof (processChars_options chunk parser) as Hc.
  destruct (processChars parser chunk) as [parser' events].
  pose proof (emitPartialAtChunkEnd_options parser') as He.
  destruct (emitPartialAtChunkEnd parser') as [parser'' events'].
  simpl in *. congruence.
Qed.

Lemma processChunks_options chunks : forall parser,
  options (context (processChunks parser chunks).1) = options (context parser).
Proof.
  induction chunks as [|chunk rest IH]; intros parser; simpl; [reflexivity|].
  pose proof (processChunk_options parser chunk) as Hc.
  destruct (processChunk parser chunk) as [parser' events].
  specialize (IH parser').
  destruct (processChunks parser' rest) as [parser'' events'].
  simpl in *. congruence.
Qed.

Lemma runSession_parser parser chunks :
  (runSession parser chunks).1 = newParser (options (context parser)).
Proof.
  unfold runSession.
  pose proof (processChunks_options chunks parser) as Hc.
  destruct (processChunks parser chunks) as [parser' events].
  pose proof (finalize_parser parser') as Hf.
  destruct (finalize parser') as [parser'' events'].
  simpl in *. congruence.
Qed.

(** C6: after [finalize], whatever was fed before, the parser is in its
    post-construction state (all four buffers empty, no tool-use and no
    parameter name, current node the root, state [Text], same options), so
    any further stream is processed exactly as by a fresh parser. *)
Theorem parser_reusable (opts : StreamingToolParserOptions)
    (history stream : list string) :
  let reused := (runSession (newParser opts) history).1 in
  reused = newParser opts
  /\ textBuffer (context reused) = EmptyString
  /\ tagBuffer (context reused) = EmptyString
  /\ paramValueBuffer (context reused) = EmptyString
  /\ closingTagBuffer (context reused) = EmptyString
  /\ currentToolUse (context reused) = None
  /\ currentParamName (context reused) = None
  /\ currentNode (context reused) = RootNode
  /\ currentState reused = Text
  /\ processChunks reused stream = processChunks (newParser opts) stream
  /\ runSession reused stream = runSession (newParser opts) stream.
Proof.
  intros reused. unfold reused. rewrite runSession_parser. simpl.
  repeat split; reflexivity.
Qed.

(** C10: when the stream ends while an opening tag is being read
    ([TagOpening] or [TagName]), [finalize] emits no event at all and
    resets the parser, so the buffered ['<'] and partial tag name reach no
    block. *)
Theorem finalize_drops_open_tag (parser : StreamingToolParser) :
  currentState parser = TagOpening \/ currentState parser = TagName ->
  finalize parser = (newParser (options (context parser)), []).
Proof.
  intros Hstate. rewrite (surjective_pairing (finalize parser)).
  rewrite finalize_parser, finalize_events.
  destruct Hstate as [-> | ->]; reflexivity.
Qed.

Lemma finalize_drops_open_tag_witness :
  let parser := (processChunk (newParser (readFileOptions false)) "Hello <read_fi").1 in
  tagBuffer (context parser) = "read_fi"
  /\ finalize parser = (newParser (readFileOptions false), []).
Proof.
  split; [reflexivity|].
  apply (finalize_drops_open_tag
           (processChunk (newParser (readFileOptions false)) "Hello <read_fi").1).
  right. reflexivity.
Defined.

(** ** Chunk-end snapshots of an open tool-use *)

Lemma emitPartialAtChunkEnd_tool parser tu :
  currentToolUse (context parser) = Some tu ->
  pendingText parser = false ->
  (emitPartialAtChunkEnd parser).2 = [BlockEvent (ToolUseBlock (snapshotOf parser tu))]
  /\ currentState (emitPartialAtChunkEnd parser).1 = currentState parser
  /\ textBuffer (context (emitPartialAtChunkEnd parser).1) = textBuffer (context parser)
  /\ currentNode (context (emitPartialAtChunkEnd parser).1) = currentNode (context parser)
  /\ currentParamName (context (emitPartialAtChunkEnd parser).1)
     = currentParamName (context parser)
  /\ paramValueBuffer (context (emitPartialAtChunkEnd parser).1)
     = paramValueBuffer (context parser)
  /\ currentToolUse (context (emitPartialAtChunkEnd parser).1)
     = Some {| name := name tu; params := params (snapshotOf parser tu);
               partial := partial tu |}.
Proof.
  intros Htu Hpending. unfold pendingText in Hpending.
  unfold emitPartialAtChunkEnd, snapshotOf, storeCurrentParamValue.
  rewrite Hpending, Htu.
  destruct (isTextContent (currentState parser)
            && negb (isRoot (currentNode (context parser)))); simpl.
  - destruct (currentParamName (context parser)) as [p|] eqn:Hp;
      [destruct (truthy p)|]; simpl; rewrite ?Htu, ?Hp; destruct tu; simpl;
      repeat split; congruence.
  - rewrite ?Htu. destruct tu; simpl; auto 10.
Qed.

Lemma processChunk_empty parser : processChunk parser "" = emitPartialAtChunkEnd parser.
Proof.
  unfold processChunk. simpl. destruct (emitPartialAtChunkEnd parser). reflexivity.
Qed.

Lemma snapshotOf_stable parser tu :
  currentToolUse (context parser) = Some tu ->
  pendingText parser = false ->
  snapshotOf (emitPartialAtChunkEnd parser).1
             {| name := name tu; params := params (snapshotOf parser tu);
                partial := partial tu |}
  = snapshotOf parser tu.
Proof.
  intros Htu Hpending.
  destruct (emitPartialAtChunkEnd_tool parser tu Htu Hpending)
    as (_ & Hst & _ & Hnode & Hpn & Hpvb & _).
  unfold snapshotOf at 1. rewrite Hst, Hnode, Hpn, Hpvb. simpl.
  unfold snapshotOf. simpl. f_equal.
  destruct (isTextContent (currentState parser)
            && negb (isRoot (currentNode (context parser)))); [|reflexivity].
  destruct (currentParamName (context parser)) as [p|]; [|reflexivity].
  destruct (truthy p); [|reflexivity].
  apply insert_insert_eq.
Qed.

(** C9, as the code has it: while a tool-use is open and the parser is not
    in [Text] with a non-empty [textBuffer], every [processChunk("")] emits
    exactly one event, the partial snapshot of the open tool-use, and any
    number of repeated empty chunks re-emit that same snapshot each time. *)
Theorem empty_chunk_reemits_snapshot (n : nat) : forall (parser : StreamingToolParser) (tu : ToolUse),
  currentToolUse (context parser) = Some tu ->
  pendingText parser = false ->
  (processChunks parser (repeat EmptyString n)).2
  = repeat (BlockEvent (ToolUseBlock (snapshotOf parser tu))) n.
Proof.
  induction n as [|n IH]; intros parser tu Htu Hpending; [reflexivity|].
  simpl repeat. cbn [processChunks]. rewrite processChunk_empty.
  destruct (emitPartialAtChunkEnd_tool parser tu Htu Hpending)
    as (Hev & Hst & Htb & _ & _ & _ & Htu').
  pose proof (snapshotOf_stable parser tu Htu Hpending) as Hsnap.
  destruct (emitPartialAtChunkEnd parser) as [parser' events]. simpl in *.
  assert (pendingText parser' = false) as Hpending'.
  { unfold pendingText in *. rewrite Hst, Htb. exact Hpending. }
  specialize (IH parser' _ Htu' Hpending').
  destruct (processChunks parser' (repeat EmptyString n)) as [parser'' events'].
  simpl in *. subst events events'. rewrite Hsnap. reflexivity.
Qed.

Lemma empty_chunk_reemits_snapshot_witness :
  let parser := (processChunk (newParser (readFileOptions false)) "<read_file><path>a").1 in
  (processChunks parser [""; ""; ""]).2
  = repeat (BlockEvent (ToolUseBlock
              {| name := "read_file"; params := {[ "path" := "a" ]}; partial := true |})) 3.
Proof.
  refine (eq_trans
    (empty_chunk_reemits_snapshot 3
       (processChunk (newParser (readFileOptions false)) "<read_file><path>a").1
       {| name := "read_file"; params := {[ "path" := "a" ]}; partial := true |}
       _ _) _); vm_compute; reflexivity.
Defined.

(** C9 as stated fails: after [<read_file>< ] a tool-use is open, yet the
    parser is in [Text] with [textBuffer = "< "], and an empty chunk emits
    a partial text block instead of a tool-use snapshot. *)
Lemma empty_chunk_counterexample :
  let parser := (processChunk (newParser (readFileOptions false)) "<read_file>< ").1 in
  is_Some (currentToolUse (context parser))
  /\ (processChunk parser "").2 = [BlockEvent (TextContentBlock "<" true)]
  /\ ~ (exists tu, (processChunk parser "").2 = [BlockEvent (ToolUseBlock tu)]).
Proof.
  split; [eexists; reflexivity|]. split; [reflexivity|].
  intros [tu Htu]. vm_compute in Htu. discriminate Htu.
Qed.

(** ** What [finalize] emits *)

Lemma emitPartialAtChunkEnd_pending parser :
  pendingText parser = true -> (emitPartialAtChunkEnd parser).1 = parser.
Proof.
  unfold pendingText, emitPartialAtChunkEnd. intros ->.
  destruct (truthy (trim _)); reflexivity.
Qed.

Lemma emitPartialAtChunkEnd_no_tool parser :
  currentToolUse (context parser) = None -> (emitPartialAtChunkEnd parser).1 = parser.
Proof.
  unfold emitPartialAtChunkEnd. intros ->. repeat case_match; reflexivity.
Qed.

Lemma processChunk_last_snapshot prev chunk tu :
  currentToolUse (context (processChunk prev chunk).1) = Some tu ->
  pendingText (processChunk prev chunk).1 = false ->
  last (processChunk prev chunk).2
  = Some (BlockEvent (ToolUseBlock
            {| name := name tu; params := params tu; partial := true |})).
Proof.
  unfold processChunk.
  destruct (processChars prev chunk) as [parser events].
  destruct (pendingText parser) eqn:Hpending.
  { pose proof (emitPartialAtChunkEnd_pending parser Hpending) as Hsame.
    destruct (emitPartialAtChunkEnd parser) as [parser' events']. simpl in *.
    subst parser'. congruence. }
  destruct (currentToolUse (context parser)) as [tu0|] eqn:Htu0.
  - destruct (emitPartialAtChunkEnd_tool parser tu0 Htu0 Hpending)
      as (Hev & _ & _ & _ & _ & _ & Htu').
    destruct (emitPartialAtChunkEnd parser) as [parser' events']. simpl in *.
    intros Htu _. subst events'. rewrite last_snoc. rewrite Htu' in Htu.
    injection Htu as <-. reflexivity.
  - pose proof (emitPartialAtChunkEnd_no_tool parser Htu0) as Hsame.
    destruct (emitPartialAtChunkEnd parser) as [parser' events']. simpl in *.
    subst parser'. congruence.
Qed.

(** C4, as the code has it: [finalize] emits exactly one event, the final
    text block carrying the trimmed [textBuffer], when the parser is in
    [Text] and that trimmed text is non-empty, and nothing otherwise; it
    never emits a tool-use block.  When the last chunk ends with a tool-use
    open and the parser not in [Text] with a non-empty [textBuffer], the
    last event before [finalize] is the snapshot of that tool-use, marked
    partial, and [finalize] adds nothing. *)
Theorem finalize_emission (parser : StreamingToolParser) :
  (finalize parser).2
  = (if isText (currentState parser) && truthy (trim (textBuffer (context parser)))
     then [BlockEvent (TextContentBlock (trim (textBuffer (context parser))) false)]
     else [])
  /\ Forall (fun e => isToolUseEvent e = false) (finalize parser).2
  /\ forall prev chunk tu,
       parser = (processChunk prev chunk).1 ->
       currentToolUse (context parser) = Some tu ->
       pendingText parser = false ->
       last (processChunk prev chunk).2
       = Some (BlockEvent (ToolUseBlock
                 {| name := name tu; params := params tu; partial := true |}))
       /\ (finalize parser).2 = [].
Proof.
  split; [apply finalize_events|]. split.
  - rewrite finalize_events. case_match; repeat constructor.
  - intros prev chunk tu -> Htu Hpending. split.
    + apply processChunk_last_snapshot; assumption.
    + rewrite finalize_events. unfold pendingText in Hpending.
      destruct (isText _); [|reflexivity]. simpl in *.
      apply truthy_false in Hpending. rewrite Hpending. reflexivity.
Qed.

Lemma finalize_emission_witness :
  let prev := newParser (readFileOptions false) in
  let chunk := "<read_file><path>file.txt</path>" in
  last (processChunk prev chunk).2
  = Some (BlockEvent (ToolUseBlock
            {| name := "read_file"; params := {[ "path" := "file.txt" ]};
               partial := true |}))
  /\ (finalize (processChunk prev chunk).1).2 = [].
Proof.
  intros prev chunk.
  refine (proj2 (proj2 (finalize_emission (processChunk prev chunk).1))
            prev chunk
            {| name := "read_file"; params := {[ "path" := "file.txt" ]};
               partial := true |} _ _ _); vm_compute; reflexivity.
Defined.

(** C4 as stated fails twice.  After [<read_file>x] the pending text is
    [x], non-empty once trimmed, but the parser is in [TextContent] and
    [finalize] emits nothing.  After
    [<read_file></read_file><read_file>< ] a tool-use is open, yet the last
    tool-use event before [finalize] is the closed first one, marked
    [partial = false]. *)
Lemma finalize_counterexample :
  let p1 := (processChunk (newParser (readFileOptions false)) "<read_file>x").1 in
  let r2 := processChunk (newParser (readFileOptions false))
              "<read_file></read_file><read_file>< " in
  ~ (trim (textBuffer (context p1)) <> EmptyString ->
     (finalize p1).2
     = [BlockEvent (TextContentBlock (trim (textBuffer (context p1))) false)])
  /\ ~ (is_Some (currentToolUse (context r2.1)) ->
        forall tu, lastToolUse r2.2 = Some tu -> partial tu = true).
Proof.
  split.
  - intros H. assert ((finalize
        (processChunk (newParser (readFileOptions false)) "<read_file>x").1).2 = []) as Hnil
      by reflexivity.
    rewrite H in Hnil; [discriminate Hnil|]. vm_compute. discriminate.
  - intros H.
    assert (is_Some (currentToolUse (context
              (processChunk (newParser (readFileOptions false))
                 "<read_file></read_file><read_file>< ").1))) as Hopen
      by (vm_compute; eexists; reflexivity).
    assert (lastToolUse (processChunk (newParser (readFileOptions false))
                           "<read_file></read_file><read_file>< ").2
            = Some {| name := "read_file"; params := ∅; partial := false |}) as Hlast
      by (vm_compute; reflexivity).
    specialize (H Hopen _ Hlast). discriminate H.
Qed.

(** ** Coherence of reachable states *)

Lemma find_buildSchema tag names paramsByTool n :
  List.find (fun child => String.eqb (nodeName child) tag)
            (buildSchemaFromValidTools names paramsByTool) = Some n ->
  exists ps, n = ToolNode tag ps.
Proof.
  unfold buildSchemaFromValidTools.
  induction names as [|t rest IH]; simpl; [discriminate|].
  destruct (paramsByTool !! t) as [ps|]; simpl;
    destruct (String.eqb_spec t tag) as [->|_]; try exact IH;
    intros [= <-]; eauto.
Qed.

Lemma find_paramChildren tag t ps0 ps n :
  List.find (fun child => String.eqb (nodeName child) tag)
            (map (ParamNode t ps0) ps) = Some n ->
  n = ParamNode t ps0 tag.
Proof.
  induction ps as [|p rest IH]; simpl; [discriminate|].
  destruct (String.eqb_spec p tag) as [->|_]; [intros [= <-]; reflexivity | exact IH].
Qed.

Lemma findChildSchema_cases ctx tag n :
  findChildSchema ctx tag = Some n ->
  match currentNode ctx with
  | RootNode => exists ps, n = ToolNode tag ps
  | ToolNode t ps => n = ParamNode t ps tag
  | ParamNode _ _ _ => False
  end.
Proof.
  unfold findChildSchema, children. destruct (currentNode ctx).
  - apply find_buildSchema.
  - apply find_paramChildren.
  - discriminate.
Qed.

Lemma append_nonempty s c : s +:+ str1 c <> EmptyString.
Proof. destruct s; discriminate. Qed.

Ltac learn_child :=
  repeat match goal with
  | H : findChildSchema _ _ = Some _ |- _ =>
      apply findChildSchema_cases in H; simpl in H;
      lazymatch type of H with
      | False => contradiction
      | ex _ => destruct H as [? H]
      | _ => idtac
      end
  end.

(** Equations between pairs and options left behind by case analysis. *)
Ltac tidy :=
  repeat match goal with
  | H : (_, _) = (_, _) |- _ => apply pair_equal_spec in H; destruct H
  | H : Some _ = Some _ |- _ => apply (inj Some) in H
  | H : Some _ = None |- _ => discriminate H
  | H : None = Some _ |- _ => discriminate H
  | H : ?x = _ |- _ => is_var x; subst x
  | H : _ = ?x |- _ => is_var x; subst x
  | H : @eq NodeSchema _ _ |- _ =>
      first [discriminate H | injection H; clear H; intros]
  | H : @eq ParseStateEnum _ _ |- _ => first [discriminate H | clear H]
  | H : String.eqb _ _ = true |- _ => apply String.eqb_eq in H
  | H : String.eqb _ _ = false |- _ => apply String.eqb_neq in H
  end.

(** Case analysis on the innermost conditions first. *)
Ltac case_inner :=
  match goal with
  | |- context [match ?x with _ => _ end] =>
      lazymatch x with
      | context [match _ with _ => _ end] => fail
      | _ => destruct x eqn:?
      end
  end.

Ltac step_cases :=
  repeat (case_inner; simpl); tidy; simpl in *; learn_child; simpl in *; tidy.

Lemma newParser_coherent opts : coherent (newParser opts).
Proof. unfold coherent; simpl; auto. Qed.

Lemma stepChar_coherent parser char :
  coherent parser -> coherent (stepChar parser char).1.
Proof.
  destruct parser as [[tb tg pvb ctb node ctu cpn opts] st].
  unfold coherent, stepChar; simpl.
  intros [Hnode Hstate].
  destruct node; simpl in *; destruct_and?; subst;
    destruct st; unfold_states; unfold storeCurrentParamValue; simpl.
  all: step_cases.
  all: try solve [repeat split; try assumption; try reflexivity; try discriminate;
              try (eexists; split; reflexivity); auto using append_nonempty
             | naive_solver].
Qed.

Lemma emitPartialAtChunkEnd_coherent parser :
  coherent parser -> coherent (emitPartialAtChunkEnd parser).1.
Proof.
  destruct parser as [[tb tg pvb ctb node ctu cpn opts] st].
  unfold coherent, emitPartialAtChunkEnd, storeCurrentParamValue; simpl.
  intros [Hnode Hstate].
  destruct node; simpl in *; destruct_and?; subst.
  all: step_cases.
  all: try solve [repeat split; try assumption; try reflexivity; try discriminate;
              try (eexists; split; reflexivity); naive_solver].
Qed.

Lemma finalize_coherent parser : coherent (finalize parser).1.
Proof. rewrite finalize_parser. apply newParser_coherent. Qed.

Lemma reachable_coherent opts parser : reachable opts parser -> coherent parser.
Proof.
  induction 1;
    auto using newParser_coherent, stepChar_coherent,
      emitPartialAtChunkEnd_coherent, finalize_coherent.
Qed.

Lemma quiet_reachable opts parser : quiet opts parser -> reachable opts parser.
Proof. induction 1; constructor; assumption. Qed.

Lemma reachable_options opts parser :
  reachable opts parser -> options (context parser) = opts.
Proof.
  induction 1 as [|parser char _ IH|parser _ IH|parser _ IH].
  - reflexivity.
  - unfold stepChar.
    pose proof (processChar_options (currentState parser) (context parser) char) as Ho.
    destruct (processChar _ _ char) as [[ctx' next] events]. simpl in *. congruence.
  - rewrite emitPartialAtChunkEnd_options. exact IH.
  - rewrite finalize_parser. exact IH.
Qed.

(** [ClosingTag] is only ever entered below the root, so the assertion
    [currentNode.parent!] of [processClosingTag] always holds. *)
Lemma closingTag_below_root opts parser :
  reachable opts parser ->
  currentState parser = ClosingTag ->
  parent (currentNode (context parser)) <> None.
Proof.
  intros Hr Hst. apply reachable_coherent in Hr. destruct Hr as [_ Hs].
  rewrite Hst in Hs. destruct (currentNode (context parser)); [contradiction|discriminate..].
Qed.

(** ** Buffers *)

Lemma stepChar_textSettled parser char :
  relaxedMode (options (context parser)) = false ->
  coherent parser ->
  textSettled parser ->
  forallb (fun e => negb (isErrorEvent e)) (stepChar parser char).2 = true ->
  textSettled (stepChar parser char).1.
Proof.
  destruct parser as [[tb tg pvb ctb node ctu cpn [names byTool relaxed]] st].
  unfold coherent, textSettled, stepChar; simpl.
  intros -> [Hnode Hstate] Hsettled.
  destruct node; simpl in *; destruct_and?; subst;
    destruct st; unfold_states; simpl.
  all: step_cases; intros Hquiet.
  all: try solve [repeat split; try assumption; try reflexivity; try discriminate;
              try congruence
             | match goal with H : truthy _ = false |- _ =>
                 apply truthy_false in H; first [congruence | subst; reflexivity] end].
Qed.

Lemma emitPartialAtChunkEnd_textSettled parser :
  textSettled parser -> textSettled (emitPartialAtChunkEnd parser).1.
Proof.
  destruct parser as [[tb tg pvb ctb node ctu cpn opts] st].
  unfold textSettled, emitPartialAtChunkEnd, storeCurrentParamValue; simpl.
  destruct st; simpl; repeat (case_inner; simpl); auto.
Qed.

Lemma quiet_textSettled opts parser :
  relaxedMode opts = false -> quiet opts parser -> textSettled parser.
Proof.
  intros Hstrict Hq.
  induction Hq as [|parser char Hq IH Hsilent|parser Hq IH|parser Hq IH].
  - reflexivity.
  - apply stepChar_textSettled; auto.
    + rewrite (reachable_options opts); eauto using quiet_reachable.
    + eauto using reachable_coherent, quiet_reachable.
  - apply emitPartialAtChunkEnd_textSettled, IH.
  - rewrite finalize_parser. reflexivity.
Qed.

Lemma reachable_root_paramValue opts parser :
  reachable opts parser ->
  currentNode (context parser) = RootNode ->
  paramValueBuffer (context parser) = EmptyString.
Proof.
  intros Hr Hroot. apply reachable_coherent in Hr. destruct Hr as [Hnode _].
  rewrite Hroot in Hnode. apply Hnode.
Qed.

(** C5, as the code has it, at every instant between two characters and
    at every chunk boundary.  In both modes [paramValueBuffer] is empty
    whenever the current node is the root.  In strict mode, as long as no
    error event has been emitted, at most one of [paramValueBuffer] and the
    trimmed [textBuffer] is non-empty: the text buffer may keep whitespace
    that was never flushed. *)
Theorem buffer_exclusivity (opts : StreamingToolParserOptions)
    (parser : StreamingToolParser) :
  (reachable opts parser ->
   currentNode (context parser) = RootNode ->
   paramValueBuffer (context parser) = EmptyString)
  /\ (relaxedMode opts = false ->
      quiet opts parser ->
      trim (textBuffer (context parser)) = EmptyString
      \/ paramValueBuffer (context parser) = EmptyString).
Proof.
  split; [apply reachable_root_paramValue|].
  intros Hstrict Hq.
  pose proof (quiet_textSettled opts parser Hstrict Hq) as Hsettled.
  unfold textSettled in Hsettled.
  destruct (currentState parser) eqn:Hst; auto.
  right. eapply reachable_root_paramValue; eauto using quiet_reachable.
Qed.

Lemma processChars_reachable opts chunk : forall parser,
  reachable opts parser -> reachable opts (processChars parser chunk).1.
Proof.
  induction chunk as [|char rest IH]; intros parser Hr; simpl; [exact Hr|].
  pose proof (reachable_char opts parser char Hr) as Hs.
  destruct (stepChar parser char) as [parser' events].
  specialize (IH parser' Hs).
  destruct (processChars parser' rest) as [parser'' events']. exact IH.
Qed.

Lemma processChars_quiet opts chunk : forall parser,
  quiet opts parser ->
  forallb (fun e => negb (isErrorEvent e)) (processChars parser chunk).2 = true ->
  quiet opts (processChars parser chunk).1.
Proof.
  induction chunk as [|char rest IH]; intros parser Hq; simpl; [intros _; exact Hq|].
  pose proof (quiet_char opts parser char Hq) as Hs.
  destruct (stepChar parser char) as [parser' events].
  specialize (IH parser').
  destruct (processChars parser' rest) as [parser'' events']. simpl in *.
  rewrite forallb_app. intros [He He']%andb_true_iff. auto.
Qed.

Lemma buffer_exclusivity_witness :
  let parser :=
    (processChars (newParser (readFileOptions false)) " <read_file><path>v").1 in
  trim (textBuffer (context parser)) = EmptyString
  \/ paramValueBuffer (context parser) = EmptyString.
Proof.
  intros parser.
  apply (proj2 (buffer_exclusivity (readFileOptions false) parser)).
  - reflexivity.
  - apply processChars_quiet; [constructor | vm_compute; reflexivity].
Defined.

(** C5 as stated fails on well-formed input: after [ <read_file><path>v]
    the text buffer still holds the leading space, which was not flushed
    because it trims to nothing, while the parameter value buffer holds
    [v]. *)
Lemma buffer_exclusivity_counterexample :
  let parser :=
    (processChars (newParser (readFileOptions false)) " <read_file><path>v").1 in
  reachable (readFileOptions false) parser
  /\ textBuffer (context parser) = " "
  /\ paramValueBuffer (context parser) = "v"
  /\ ~ (textBuffer (context parser) = EmptyString
        \/ paramValueBuffer (context parser) = EmptyString).
Proof.
  split; [apply processChars_reachable; constructor|].
  split; [vm_compute; reflexivity|]. split; [vm_compute; reflexivity|].
  intros [H|H]; vm_compute in H; discriminate H.
Qed.

(** ** Chunking *)

Ltac unfold_setters :=
  unfold set_textBuffer, set_tagBuffer, set_paramValueBuffer,
    set_closingTagBuffer, set_currentNode, set_currentToolUse,
    set_currentParamName in *; simpl in *.

Lemma stepChar_stale p q char :
  coherent p -> stale p q ->
  (stepChar p char).2 = (stepChar q char).2
  /\ stale (stepChar p char).1 (stepChar q char).1.
Proof.
  intros Hc [->|(tu & tu' & pn & Htu & Hpn & Htruthy & Hname & Hpartial & Hv & ->)].
  { split; [reflexivity | left; reflexivity]. }
  destruct p as [[tb tg pvb ctb node ctu cpn opts] st].
  unfold coherent in Hc. simpl in *. subst ctu cpn.
  destruct Hc as [Hnode Hstate].
  destruct node as [|t ps|t ps p]; simpl in Hnode; destruct_and?; try discriminate.
  assert (p = pn) by congruence. subst p.
  unfold stale, stepChar; simpl.
  destruct st; unfold_states; simpl.
  all: step_cases.
  all: unfold_setters.
  all: try discriminate.
  all: solve [split; [reflexivity|]; right; exists tu, tu'; eexists;
              repeat split; eauto
             | split; [reflexivity|]; left;
               rewrite ?Hv, ?Hname, ?Hpartial; reflexivity].
Qed.

Ltac stale_right :=
  right; do 3 eexists; repeat apply conj;
  [ | | | | | | reflexivity];
  [reflexivity | reflexivity | ..];
  simpl; first [assumption | reflexivity | idtac].

Lemma emitPartialAtChunkEnd_stale p q :
  coherent p -> stale p q -> stale p (emitPartialAtChunkEnd q).1.
Proof.
  intros Hc Hstale.
  destruct p as [[tb tg pvb ctb node ctu cpn opts] st].
  destruct Hstale
    as [->|(tu & tu' & pn & Htu & Hpn & Htruthy & Hname & Hpartial & Hv & ->)];
    unfold stale, emitPartialAtChunkEnd, storeCurrentParamValue; simpl in *.
  - repeat (case_inner; simpl); tidy; auto.
    unfold_setters. stale_right.
    intros v. apply insert_insert_eq.
  - subst ctu cpn. repeat (case_inner; simpl); tidy; unfold_setters.
    all: try discriminate.
    all: stale_right; auto.
    intros v. rewrite insert_insert_eq. apply Hv.
Qed.

Lemma emitPartialAtChunkEnd_nonPartial parser :
  nonPartial (emitPartialAtChunkEnd parser).2 = [].
Proof.
  unfold emitPartialAtChunkEnd. repeat (case_inner; simpl); reflexivity.
Qed.

Lemma emitPartialAtChunkEnd_frame parser :
  currentState (emitPartialAtChunkEnd parser).1 = currentState parser
  /\ textBuffer (context (emitPartialAtChunkEnd parser).1) = textBuffer (context parser).
Proof.
  unfold emitPartialAtChunkEnd, storeCurrentParamValue.
  repeat (case_inner; simpl); auto.
Qed.

Lemma finalize_determined p q :
  currentState p = currentState q ->
  textBuffer (context p) = textBuffer (context q) ->
  options (context p) = options (context q) ->
  finalize p = finalize q.
Proof.
  intros Hst Htb Hopts.
  rewrite (surjective_pairing (finalize p)), (surjective_pairing (finalize q)).
  rewrite !finalize_parser, !finalize_events, Hst, Htb, Hopts. reflexivity.
Qed.

Lemma finalize_chunkEnd parser :
  finalize (emitPartialAtChunkEnd parser).1 = finalize parser.
Proof.
  destruct (emitPartialAtChunkEnd_frame parser) as [Hst Htb].
  apply finalize_determined; auto using emitPartialAtChunkEnd_options.
Qed.

Lemma finalize_stale p q : stale p q -> finalize q = finalize p.
Proof.
  intros [->|(tu & tu' & pn & _ & _ & _ & _ & _ & _ & ->)]; [reflexivity|].
  apply finalize_determined; reflexivity.
Qed.

Lemma processChars_app c1 : forall parser c2,
  processChars parser (c1 +:+ c2)
  = let '(parser', events) := processChars parser c1 in
    let '(parser'', events') := processChars parser' c2 in
    (parser'', events ++ events').
Proof.
  induction c1 as [|char rest IH]; intros parser c2.
  - change (EmptyString +:+ c2) with c2. simpl.
    destruct (processChars parser c2); reflexivity.
  - change (String char rest +:+ c2) with (String char (rest +:+ c2)).
    cbn [processChars]. destruct (stepChar parser char) as [parser' events].
    rewrite IH. destruct (processChars parser' rest) as [parser'' events'].
    destruct (processChars parser'' c2) as [parser3 events3].
    rewrite app_assoc. reflexivity.
Qed.

Lemma processChars_coherent chunk : forall parser,
  coherent parser -> coherent (processChars parser chunk).1.
Proof.
  induction chunk as [|char rest IH]; intros parser Hc; simpl; [exact Hc|].
  pose proof (stepChar_coherent parser char Hc) as Hs.
  destruct (stepChar parser char) as [parser' events].
  specialize (IH parser' Hs).
  destruct (processChars parser' rest) as [parser'' events']. exact IH.
Qed.

Lemma processChars_stale chunk : forall p q,
  coherent p -> stale p q ->
  (processChars p chunk).2 = (processChars q chunk).2
  /\ stale (processChars p chunk).1 (processChars q chunk).1.
Proof.
  induction chunk as [|char rest IH]; intros p q Hc Hstale; simpl; [auto|].
  pose proof (stepChar_coherent p char Hc) as Hc'.
  destruct (stepChar_stale p q char Hc Hstale) as [Hev Hstale'].
  destruct (stepChar p char) as [p' events].
  destruct (stepChar q char) as [q' eventsq]. simpl in *.
  destruct (IH p' q' Hc' Hstale') as [Hev' Hstale''].
  destruct (processChars p' rest) as [p'' events'].
  destruct (processChars q' rest) as [q'' eventsq']. simpl in *.
  split; congruence.
Qed.

Lemma nonPartial_app a b : nonPartial (a ++ b) = nonPartial a ++ nonPartial b.
Proof. apply List.filter_app. Qed.

(** Feeding the chunks one by one and feeding their concatenation at once
    lead to related parsers and to the same errors and final blocks. *)
Lemma processChunks_stream chunks : forall p q,
  coherent p -> stale p q ->
  nonPartial (processChunks q chunks).2 = nonPartial (processChars p (streamOf chunks)).2
  /\ stale (processChars p (streamOf chunks)).1 (processChunks q chunks).1.
Proof.
  induction chunks as [|chunk rest IH]; intros p q Hc Hstale; simpl; [auto|].
  rewrite processChars_app. unfold processChunk.
  pose proof (processChars_coherent chunk p Hc) as Hc1.
  destruct (processChars_stale chunk p q Hc Hstale) as [Hev Hstale1].
  destruct (processChars p chunk) as [p1 events].
  destruct (processChars q chunk) as [q1 eventsq]. simpl in *. subst eventsq.
  pose proof (emitPartialAtChunkEnd_stale p1 q1 Hc1 Hstale1) as Hstale2.
  pose proof (emitPartialAtChunkEnd_nonPartial q1) as Hpartial.
  destruct (emitPartialAtChunkEnd q1) as [q2 snapshot]. simpl in *.
  destruct (IH p1 q2 Hc1 Hstale2) as [Hev' Hstale3].
  destruct (processChars p1 (streamOf rest)) as [p3 events'].
  destruct (processChunks q2 rest) as [q3 eventsq']. simpl in *.
  split; [|exact Hstale3].
  rewrite !nonPartial_app, Hpartial, Hev', app_nil_r. reflexivity.
Qed.

Lemma runSession_stream opts chunks :
  nonPartial (runSession (newParser opts) chunks).2
  = nonPartial (runSession (newParser opts) [streamOf chunks]).2.
Proof.
  unfold runSession. cbn [processChunks]. unfold processChunk.
  destruct (processChunks_stream chunks (newParser opts) (newParser opts)
              (newParser_coherent opts) (or_introl eq_refl)) as [Hev Hstale].
  destruct (processChars (newParser opts) (streamOf chunks)) as [p events].
  destruct (processChunks (newParser opts) chunks) as [q eventsq]. simpl in *.
  pose proof (finalize_chunkEnd p) as Hfin.
  pose proof (emitPartialAtChunkEnd_nonPartial p) as Hpartial.
  destruct (emitPartialAtChunkEnd p) as [p' snapshot]. simpl in *.
  rewrite Hfin, (finalize_stale p q Hstale).
  destruct (finalize p) as [p'' final]. simpl.
  rewrite !nonPartial_app, Hpartial, Hev. simpl. rewrite !app_nil_r. reflexivity.
Qed.

Lemma finalBlocks_nonPartial events :
  finalBlocks (nonPartial events) = finalBlocks events.
Proof.
  induction events as [|e rest IH]; [reflexivity|].
  change (nonPartial (e :: rest))
    with (if negb (isPartialBlock e) then e :: nonPartial rest else nonPartial rest).
  destruct e as [b|err].
  - cbn [finalBlocks]. destruct (isPartialBlock (BlockEvent b)) eqn:Hp; cbn [negb].
    + exact IH.
    + cbn [finalBlocks]. rewrite Hp, IH. reflexivity.
  - cbn [isPartialBlock negb finalBlocks]. exact IH.
Qed.

Lemma string_append_empty s : s +:+ EmptyString = s.
Proof.
  induction s as [|c s IH]; [reflexivity|].
  change (String c s +:+ EmptyString) with (String c (s +:+ EmptyString)).
  rewrite IH. reflexivity.
Qed.

(** C1: for every split [s = c1 ++ c2] of a character stream, feeding [s]
    in one chunk and feeding [c1] then [c2], each followed by [finalize],
    to a freshly constructed parser with the same schema and mode yields
    the same sequence of blocks with [partial = false]; the errors and
    their interleaving with these blocks agree as well, and so does the
    parser left behind. *)
Theorem chunking_equivalence (opts : StreamingToolParserOptions) (c1 c2 : string) :
  finalBlocks (runSession (newParser opts) [c1 +:+ c2]).2
  = finalBlocks (runSession (newParser opts) [c1; c2]).2
  /\ nonPartial (runSession (newParser opts) [c1 +:+ c2]).2
     = nonPartial (runSession (newParser opts) [c1; c2]).2
  /\ (runSession (newParser opts) [c1 +:+ c2]).1
     = (runSession (newParser opts) [c1; c2]).1.
Proof.
  pose proof (runSession_stream opts [c1; c2]) as Hsame.
  simpl streamOf in Hsame. rewrite string_append_empty in Hsame.
  split; [|split].
  - rewrite <- finalBlocks_nonPartial, <- Hsame. apply finalBlocks_nonPartial.
  - symmetry. exact Hsame.
  - rewrite !runSession_parser. reflexivity.
Qed.

(** The same for any division of the stream into chunks. *)
Corollary chunking_equivalence_any (opts : StreamingToolParserOptions)
    (chunks : list string) :
  finalBlocks (runSession (newParser opts) chunks).2
  = finalBlocks (runSession (newParser opts) [streamOf chunks]).2.
Proof.
  rewrite <- finalBlocks_nonPartial, runSession_stream. apply finalBlocks_nonPartial.
Qed.

(** * Further properties of the parser *)

(** ** Strict and relaxed mode *)

Lemma processChar_relaxedModeEvent state ctx char :
  relaxedMode (options ctx) = true ->
  forallb relaxedModeEvent (processChar state ctx char).2 = true.
Proof.
  destruct ctx as [tb tg pvb ctb node ctu cpn [names byTool relaxed]].
  simpl. intros ->.
  destruct state; unfold_states; simpl; repeat (case_inner; simpl); reflexivity.
Qed.

Lemma processChars_relaxedModeEvent chunk : forall parser,
  relaxedMode (options (context parser)) = true ->
  forallb relaxedModeEvent (processChars parser chunk).2 = true.
Proof.
  induction chunk as [|char rest IH]; intros parser Hrelaxed; simpl; [reflexivity|].
  unfold stepChar.
  pose proof (processChar_relaxedModeEvent (currentState parser) (context parser)
                char Hrelaxed) as Hs.
  pose proof (processChar_options (currentState parser) (context parser) char) as Ho.
  destruct (processChar _ _ char) as [[ctx' next] events].
  specialize (IH {| context := ctx'; currentState := next |}).
  destruct (processChars _ rest) as [parser'' events']. simpl in *.
  rewrite forallb_app, Hs, IH; [reflexivity | congruence].
Qed.

Lemma emitPartialAtChunkEnd_blocks parser :
  forallb (fun e => negb (isErrorEvent e)) (emitPartialAtChunkEnd parser).2 = true.
Proof.
  unfold emitPartialAtChunkEnd. repeat (case_inner; simpl); reflexivity.
Qed.

Lemma relaxedModeEvent_block events :
  forallb (fun e => negb (isErrorEvent e)) events = true ->
  forallb relaxedModeEvent events = true.
Proof.
  induction events as [|[b|e] rest IH]; simpl; [reflexivity| |discriminate].
  exact IH.
Qed.

Lemma processChunks_relaxedModeEvent chunks : forall parser,
  relaxedMode (options (context parser)) = true ->
  forallb relaxedModeEvent (processChunks parser chunks).2 = true.
Proof.
  induction chunks as [|chunk rest IH]; intros parser Hrelaxed; simpl; [reflexivity|].
  unfold processChunk.
  pose proof (processChars_relaxedModeEvent chunk parser Hrelaxed) as Hc.
  pose proof (processChars_options chunk parser) as Ho.
  destruct (processChars parser chunk) as [parser1 events].
  pose proof (emitPartialAtChunkEnd_blocks parser1) as He.
  pose proof (emitPartialAtChunkEnd_options parser1) as Ho'.
  destruct (emitPartialAtChunkEnd parser1) as [parser2 snapshot]. simpl in *.
  specialize (IH parser2).
  destruct (processChunks parser2 rest) as [parser3 events']. simpl in *.
  rewrite !forallb_app, Hc, (relaxedModeEvent_block _ He), IH; [reflexivity | congruence].
Qed.

(** In relaxed mode no run ever emits [Invalid tool name], [Invalid param
    name], [Invalid tag name], [Closing tag without matching opening tag]
    or [Unexpected whitespace after '<']: every [emitError] for them sits
    in the strict branch of a [relaxedMode] test. *)
Theorem relaxed_mode_silences_tag_errors (opts : StreamingToolParserOptions)
    (chunks : list string) :
  relaxedMode opts = true ->
  forallb relaxedModeEvent (runSession (newParser opts) chunks).2 = true.
Proof.
  intros Hrelaxed. unfold runSession.
  pose proof (processChunks_relaxedModeEvent chunks (newParser opts) Hrelaxed) as Hc.
  destruct (processChunks (newParser opts) chunks) as [parser events].
  pose proof (finalize_events parser) as Hf.
  destruct (finalize parser) as [parser' final]. simpl in *.
  rewrite forallb_app, Hc, Hf. case_match; reflexivity.
Qed.

Lemma relaxed_mode_silences_tag_errors_witness :
  (runSession (newParser (readFileOptions true)) ["< a </b> <zz>"]).2
  = [BlockEvent (TextContentBlock "< a" false);
     BlockEvent (TextContentBlock "</b>" false);
     BlockEvent (TextContentBlock "<zzz>" true);
     BlockEvent (TextContentBlock "<zzz>" false)]
  /\ forallb relaxedModeEvent
       (runSession (newParser (readFileOptions true)) ["< a </b> <zz>"]).2 = true.
Proof.
  split; [vm_compute; reflexivity|].
  apply (relaxed_mode_silences_tag_errors (readFileOptions true) ["< a </b> <zz>"]).
  reflexivity.
Defined.

(** A single step in the two modes.  Unless the strict step reports an
    invalid parameter name inside a tool, the relaxed step leaves the same
    buffers, node, tool-use and parameter name, enters the same state, and
    emits the strict step's events without the errors relaxed mode
    suppresses. *)
Theorem relaxed_step_agrees_with_strict (state : ParseStateEnum)
    (ctx : ParserContext) (char : ascii) :
  let strict := processChar state (withMode false ctx) char in
  let relaxed := processChar state (withMode true ctx) char in
  forallb (fun e => negb (isInvalidParamName e)) strict.2 = true ->
  relaxed.1.1 = withMode true strict.1.1
  /\ relaxed.1.2 = strict.1.2
  /\ relaxed.2 = List.filter (keptInRelaxed ctx) strict.2.
Proof.
  destruct ctx as [tb tg pvb ctb node ctu cpn [names byTool relaxed]].
  unfold withMode; simpl.
  destruct node; destruct state; unfold_states;
    unfold findChildSchema, hasChildSchemaWithPrefix; simpl.
  all: repeat (case_inner; simpl).
  all: try discriminate.
  all: intros _; repeat split; reflexivity.
Qed.

Lemma relaxed_step_agrees_with_strict_witness :
  let ctx :=
    context (processChars (newParser (readFileOptions false)) "<read_file><path>a</").1 in
  (processChar ClosingTag (withMode false ctx) "x").2
  = [ErrorEvent (MismatchedClosingTag "path" "x" false)]
  /\ (processChar ClosingTag (withMode true ctx) "x").2 = []
  /\ (processChar ClosingTag (withMode true ctx) "x").1
     = (withMode true (processChar ClosingTag (withMode false ctx) "x").1.1, TextContent).
Proof.
  intros ctx.
  destruct (relaxed_step_agrees_with_strict ClosingTag ctx "x") as (Hctx & Hst & Hev).
  { vm_compute. reflexivity. }
  split; [vm_compute; reflexivity|]. split; [vm_compute; reflexivity|].
  rewrite (surjective_pairing (processChar ClosingTag (withMode true ctx) "x").1).
  rewrite Hctx, Hst. f_equal.
Defined.

(** ** Errors keep the offending characters in a buffer *)

Lemma string_append_assoc a b c : (a +:+ b) +:+ c = a +:+ (b +:+ c).
Proof.
  induction a as [|x a IH]; [reflexivity|].
  change (String x ((a +:+ b) +:+ c) = String x (a +:+ (b +:+ c))).
  rewrite IH. reflexivity.
Qed.

Ltac char_eq :=
  repeat match goal with
  | H : Ascii.eqb ?c _ = true |- _ => apply Ascii.eqb_eq in H; subst c
  end.



(** ** Where partial blocks come from *)

Lemma processChar_final_blocks state ctx char :
  forallb (fun e => negb (isPartialBlock e)) (processChar state ctx char).2 = true.
Proof.
  destruct state; unfold_states; repeat (case_inner; simpl); reflexivity.
Qed.

Lemma processChars_final_blocks chunk : forall parser,
  forallb (fun e => negb (isPartialBlock e)) (processChars parser chunk).2 = true.
Proof.
  induction chunk as [|char rest IH]; intros parser; simpl; [reflexivity|].
  unfold stepChar.
  pose proof (processChar_final_blocks (currentState parser) (context parser) char) as Hs.
  destruct (processChar _ _ char) as [[ctx' next] events].
  specialize (IH {| context := ctx'; currentState := next |}).
  destruct (processChars _ rest) as [parser'' events']. simpl in *.
  rewrite forallb_app, Hs, IH. reflexivity.
Qed.

(** While characters are consumed only errors and final blocks are
    emitted; a [processChunk] call emits at most one partial block, as its
    very last event. *)
Theorem partial_blocks_only_at_chunk_end (parser : StreamingToolParser)
    (chunk : string) :
  exists snapshot,
    (processChunk parser chunk).2 = (processChars parser chunk).2 ++ snapshot
    /\ forallb (fun e => negb (isPartialBlock e)) (processChars parser chunk).2 = true
    /\ (snapshot = []
        \/ exists block, snapshot = [BlockEvent block]
                         /\ isPartialBlock (BlockEvent block) = true).
Proof.
  unfold processChunk.
  pose proof (processChars_final_blocks chunk parser) as Hfinal.
  destruct (processChars parser chunk) as [parser' events].
  exists (emitPartialAtChunkEnd parser').2.
  destruct (emitPartialAtChunkEnd parser') as [parser'' snapshot] eqn:Hend.
  split; [reflexivity|]. split; [exact Hfinal|]. simpl.
  assert (snapshot = (emitPartialAtChunkEnd parser').2) as -> by (rewrite Hend; reflexivity).
  unfold emitPartialAtChunkEnd. repeat (case_inner; simpl); eauto.
Qed.

(** ** Plain text *)

Lemma processChars_plain chunk : forall ctx,
  noFence chunk = true ->
  allowedTextContent (currentNode ctx) = true ->
  processChars {| context := ctx; currentState := Text |} chunk
  = ({| context := set_textBuffer (textBuffer ctx +:+ chunk) ctx;
        currentState := Text |}, []).
Proof.
  induction chunk as [|char rest IH]; intros ctx Hplain Htext.
  - simpl. rewrite string_append_empty. destruct ctx; reflexivity.
  - simpl in Hplain. apply andb_true_iff in Hplain as [Hchar Hrest].
    cbn [processChars]. unfold stepChar, processChar, TextState_processChar.
    cbn [context currentState]. apply negb_true_iff in Hchar.
    rewrite Hchar, Htext. cbn [negb].
    rewrite (IH _ Hrest) by (destruct ctx; exact Htext).
    destruct ctx; unfold set_textBuffer; simpl.
    rewrite string_append_assoc. reflexivity.
Qed.

Lemma processChunks_plain chunks : forall ctx,
  forallb noFence chunks = true ->
  allowedTextContent (currentNode ctx) = true ->
  currentToolUse ctx = None ->
  processChunks {| context := ctx; currentState := Text |} chunks
  = ({| context := set_textBuffer (textBuffer ctx +:+ streamOf chunks) ctx;
        currentState := Text |},
     textSnapshots (textBuffer ctx) chunks).
Proof.
  induction chunks as [|chunk rest IH]; intros ctx Hplain Htext Htool.
  - simpl. rewrite string_append_empty. destruct ctx; reflexivity.
  - simpl in Hplain. apply andb_true_iff in Hplain as [Hchunk Hrest].
    cbn [processChunks streamOf fold_right textSnapshots]. unfold processChunk.
    rewrite (processChars_plain chunk ctx Hchunk Htext).
    specialize (IH (set_textBuffer (textBuffer ctx +:+ chunk) ctx) Hrest).
    destruct ctx as [tb tg pvb ctb node ctu cpn opts].
    unfold emitPartialAtChunkEnd, set_textBuffer in *; simpl in *. subst ctu.
    rewrite string_append_assoc in IH.
    destruct (truthy (tb +:+ chunk)) eqn:Hnonempty; simpl.
    + destruct (truthy (trim (tb +:+ chunk))); rewrite (IH Htext eq_refl); reflexivity.
    + rewrite (IH Htext eq_refl). apply truthy_false in Hnonempty.
      rewrite Hnonempty. reflexivity.
Qed.

(** A stream without any ['<'], however it is chunked and in either mode,
    produces no error and no tool-use: after each chunk one partial text
    block with the trimmed text accumulated so far (none while that text is
    blank), and on [finalize] one final text block with the whole trimmed
    stream (none if it is blank). *)
Theorem plain_text_passes_through (opts : StreamingToolParserOptions)
    (chunks : list string) :
  forallb noFence chunks = true ->
  (runSession (newParser opts) chunks).2
  = textSnapshots EmptyString chunks
    ++ (if truthy (trim (streamOf chunks))
        then [BlockEvent (TextContentBlock (trim (streamOf chunks)) false)]
        else []).
Proof.
  intros Hplain. unfold runSession, newParser.
  rewrite (processChunks_plain chunks (newContext opts) Hplain eq_refl eq_refl).
  rewrite (surjective_pairing (finalize _)), finalize_events. reflexivity.
Qed.

Lemma plain_text_passes_through_witness :
  (runSession (newParser (readFileOptions false)) ["  "; " Hello"; " world > "]).2
  = [BlockEvent (TextContentBlock "Hello" true);
     BlockEvent (TextContentBlock "Hello world >" true);
     BlockEvent (TextContentBlock "Hello world >" false)].
Proof.
  refine (eq_trans
    (plain_text_passes_through (readFileOptions false)
       ["  "; " Hello"; " world > "] _) _); vm_compute; reflexivity.
Defined.

(** ** Empty input and repeated [finalize] *)

Lemma processChunks_empty_fresh opts n :
  processChunks (newParser opts) (repeat EmptyString n) = (newParser opts, []).
Proof.
  induction n as [|n IH]; [reflexivity|].
  simpl repeat. cbn [processChunks]. rewrite processChunk_empty.
  change (emitPartialAtChunkEnd (newParser opts)) with (newParser opts, @nil ParserEvent).
  cbv beta iota. rewrite IH. reflexivity.
Qed.

(** Empty input is silent: any number of empty chunks fed to a fresh
    parser and then [finalize] emit nothing; and a second [finalize] right
    after a first one, whatever the parser held, emits nothing and changes
    nothing. *)
Theorem empty_input_is_silent (opts : StreamingToolParserOptions) (n : nat)
    (parser : StreamingToolParser) :
  runSession (newParser opts) (repeat EmptyString n) = (newParser opts, [])
  /\ finalize (finalize parser).1 = ((finalize parser).1, []).
Proof.
  split.
  - unfold runSession. rewrite processChunks_empty_fresh. reflexivity.
  - rewrite finalize_parser. reflexivity.
Qed.

(** ** The schema *)

Lemma find_names_tool tag names (byTool : gmap string (list string)) :
  List.find (fun child => String.eqb (nodeName child) tag)
            (buildSchemaFromValidTools names byTool)
  = if decide (tag ∈ names)
    then Some (ToolNode tag (default [] (byTool !! tag)))
    else None.
Proof.
  unfold buildSchemaFromValidTools.
  induction names as [|t rest IH].
  - destruct (decide (tag ∈ [])) as [Hin|_]; [|reflexivity].
    apply elem_of_nil in Hin. contradiction.
  - cbn [map List.find].
    assert (nodeName match byTool !! t with
                     | Some params => ToolNode t params
                     | None => ToolNode t []
                     end = t) as Hname by (destruct (byTool !! t); reflexivity).
    rewrite Hname. destruct (String.eqb_spec t tag) as [->|Hne].
    + destruct (decide (tag ∈ tag :: rest)) as [_|Hnin].
      * destruct (byTool !! tag); reflexivity.
      * exfalso. apply Hnin, list_elem_of_here.
    + rewrite IH. destruct (decide (tag ∈ rest)) as [Hin|Hnin];
        destruct (decide (tag ∈ t :: rest)) as [Hin'|Hnin']; try reflexivity.
      * exfalso. apply Hnin', list_elem_of_further, Hin.
      * apply elem_of_cons in Hin' as [Heq|Hin']; congruence.
Qed.

Lemma find_names_param tag t ps0 ps :
  List.find (fun child => String.eqb (nodeName child) tag) (map (ParamNode t ps0) ps)
  = if decide (tag ∈ ps) then Some (ParamNode t ps0 tag) else None.
Proof.
  induction ps as [|p rest IH].
  - destruct (decide (tag ∈ [])) as [Hin|_]; [|reflexivity].
    apply elem_of_nil in Hin. contradiction.
  - cbn [map List.find nodeName]. destruct (String.eqb_spec p tag) as [->|Hne].
    + destruct (decide (tag ∈ tag :: rest)) as [_|Hnin]; [reflexivity|].
      exfalso. apply Hnin, list_elem_of_here.
    + rewrite IH. destruct (decide (tag ∈ rest)) as [Hin|Hnin];
        destruct (decide (tag ∈ p :: rest)) as [Hin'|Hnin']; try reflexivity.
      * exfalso. apply Hnin', list_elem_of_further, Hin.
      * apply elem_of_cons in Hin' as [Heq|Hin']; congruence.
Qed.

Lemma findChildSchema_spec (ctx : ParserContext) (tag : string) :
  findChildSchema ctx tag
  = match currentNode ctx with
    | RootNode =>
        if decide (tag ∈ validToolNames (options ctx))
        then Some (ToolNode tag
                     (default [] (validParamNamesByTool (options ctx) !! tag)))
        else None
    | ToolNode t ps =>
        if decide (tag ∈ ps) then Some (ParamNode t ps tag) else None
    | ParamNode _ _ _ => None
    end.
Proof.
  unfold findChildSchema, children. destruct (currentNode ctx).
  - apply find_names_tool.
  - apply find_names_param.
  - reflexivity.
Qed.

(** Schema lookup.  At the root a tag names a child exactly when it is one
    of [validToolNames]; the tool node found carries the parameter names
    registered for it, and none when [validParamNamesByTool] has no entry
    for the tool.  Inside a tool a tag names a child exactly when it is one
    of the tool's parameter names.  A parameter node has no children, so no
    tag can open inside a parameter. *)
Theorem schema_lookup (ctx : ParserContext) (tag : string) :
  findChildSchema ctx tag
  = match currentNode ctx with
    | RootNode =>
        if decide (tag ∈ validToolNames (options ctx))
        then Some (ToolNode tag
                     (default [] (validParamNamesByTool (options ctx) !! tag)))
        else None
    | ToolNode t ps =>
        if decide (tag ∈ ps) then Some (ParamNode t ps tag) else None
    | ParamNode _ _ _ => None
    end.
Proof. exact (findChildSchema_spec ctx tag). Qed.

(** ** The current node and the objects being assembled *)

(** In every reachable state a tool-use is being assembled exactly when
    the current node is below the root, and it bears the name of the
    enclosing tool node; a parameter name is current exactly when the
    current node is a parameter node, and it is that node's name. *)
Theorem tool_state_follows_node (opts : StreamingToolParserOptions)
    (parser : StreamingToolParser) :
  reachable opts parser ->
  let ctx := context parser in
  (is_Some (currentToolUse ctx) <-> currentNode ctx <> RootNode)
  /\ (forall tu, currentToolUse ctx = Some tu ->
       exists ps, currentNode ctx = ToolNode (name tu) ps
                  \/ exists p, currentNode ctx = ParamNode (name tu) ps p)
  /\ (forall p, currentParamName ctx = Some p <->
       exists t ps, currentNode ctx = ParamNode t ps p).
Proof.
  intros Hr ctx. apply reachable_coherent in Hr. destruct Hr as [Hnode _].
  fold ctx in Hnode. destruct (currentNode ctx) as [|t ps|t ps p].
  - destruct Hnode as (-> & -> & _). split; [|split].
    + split; [intros [? [=]] | congruence].
    + intros tu [=].
    + intros p. split; [intros [=] | intros (? & ? & [=])].
  - destruct Hnode as ((tu & -> & <-) & ->). split; [|split].
    + split; [discriminate | eauto].
    + intros ? [= <-]. eauto.
    + intros p. split; [intros [=] | intros (? & ? & [=])].
  - destruct Hnode as ((tu & -> & <-) & -> & _). split; [|split].
    + split; [discriminate | eauto].
    + intros ? [= <-]. eauto.
    + intros q. split; [intros [= <-]; eauto | intros (? & ? & [= _ _ <-]); reflexivity].
Qed.

Lemma tool_state_follows_node_witness :
  let parser :=
    (processChars (newParser (readFileOptions false)) "<read_file><path>a").1 in
  currentNode (context parser)
  = ParamNode "read_file" ["path"; "start_line"; "end_line"] "path"
  /\ is_Some (currentToolUse (context parser))
  /\ currentParamName (context parser) = Some "path".
Proof.
  intros parser.
  assert (currentNode (context parser)
          = ParamNode "read_file" ["path"; "start_line"; "end_line"] "path") as Hnode
    by (vm_compute; reflexivity).
  destruct (tool_state_follows_node (readFileOptions false) parser) as (Htool & _ & Hparam).
  { apply processChars_reachable; constructor. }
  split; [exact Hnode|]. split.
  - apply Htool. rewrite Hnode. discriminate.
  - apply Hparam. eauto.
Defined.

Lemma closingTag_below_root_witness :
  let parser := (processChars (newParser (readFileOptions false)) "<read_file></re").1 in
  closingTagBuffer (context parser) = "re"
  /\ parent (currentNode (context parser)) <> None.
Proof.
  intros parser. split; [vm_compute; reflexivity|].
  apply (closingTag_below_root (readFileOptions false) parser).
  - apply processChars_reachable; constructor.
  - vm_compute. reflexivity.
Defined.

(** A parameter is left only through its own closing tag.  From a
    reachable state inside a parameter, in either mode, a step either stays
    in that parameter with the same tool-use, or it is the ['>'] that
    completes the parameter's closing tag: then the parser moves up to the
    tool node and stores the whole [paramValueBuffer] under the parameter's
    name.  No error path abandons an open parameter. *)
Theorem parameter_left_only_by_its_closing_tag (opts : StreamingToolParserOptions)
    (parser : StreamingToolParser) (char : ascii) (t : string) (ps : list string)
    (p : string) :
  reachable opts parser ->
  currentNode (context parser) = ParamNode t ps p ->
  let next := (stepChar parser char).1 in
  (currentNode (context next) = ParamNode t ps p
   /\ currentToolUse (context next) = currentToolUse (context parser)
   /\ currentParamName (context next) = Some p)
  \/ (currentState parser = ClosingTag /\ char = ">"%char
      /\ closingTagBuffer (context parser) = p
      /\ currentNode (context next) = ToolNode t ps
      /\ currentState next = TextContent
      /\ currentParamName (context next) = None
      /\ exists tu, currentToolUse (context parser) = Some tu
           /\ currentToolUse (context next)
              = Some {| name := name tu;
                        params := <[p := paramValueBuffer (context parser)]> (params tu);
                        partial := partial tu |}).
Proof.
  intros Hr Hnode. apply reachable_coherent in Hr.
  destruct parser as [[tb tg pvb ctb node ctu cpn o] st].
  unfold coherent in Hr. simpl in *. subst node. simpl in Hr.
  destruct Hr as [((tu & -> & Hname) & -> & Hp) Hstate].
  unfold stepChar; simpl.
  destruct st; unfold_states; simpl.
  all: repeat (case_inner; simpl); tidy; simpl in *; learn_child; char_eq.
  all: try solve [left; repeat split; reflexivity].
  all: try solve [right; repeat split; try reflexivity; eexists; split; reflexivity].
  exfalso.
  match goal with H : truthy _ = false |- _ => apply truthy_false in H; contradiction end.
Qed.

Lemma parameter_left_only_by_its_closing_tag_witness :
  let parser :=
    (processChars (newParser (readFileOptions false)) "<read_file><path>a b</path").1 in
  currentNode (context (stepChar parser ">").1)
  = ToolNode "read_file" ["path"; "start_line"; "end_line"]
  /\ currentToolUse (context (stepChar parser ">").1)
     = Some {| name := "read_file"; params := {[ "path" := "a b" ]}; partial := true |}.
Proof.
  intros parser.
  destruct (parameter_left_only_by_its_closing_tag (readFileOptions false) parser ">"
              "read_file" ["path"; "start_line"; "end_line"] "path")
    as [(Hnode & _) | (_ & _ & _ & Hnode & _ & _ & tu & Htu & Hnext)].
  - apply processChars_reachable; constructor.
  - vm_compute; reflexivity.
  - exfalso. vm_compute in Hnode. discriminate Hnode.
  - split; [exact Hnode|]. vm_compute. reflexivity.
Defined.

(** ** Reading back a rendered tool call *)

Lemma substring_append a b : substring 0 (String.length a) (a +:+ b) = a.
Proof.
  induction a as [|c a IH]; [destruct b; reflexivity|].
  change (String c (substring 0 (String.length a) (a +:+ b)) = String c a).
  rewrite IH. reflexivity.
Qed.

Lemma prefix_append a b : String.prefix a (a +:+ b) = true.
Proof. apply String.prefix_correct, substring_append. Qed.

Lemma append_cons_shift a c b : a +:+ String c b = (a +:+ str1 c) +:+ b.
Proof. rewrite string_append_assoc. reflexivity. Qed.

(** Reading the rest of a tag name that some child of the current node bears. *)
Lemma tagName_reads rest : forall ctx,
  nameChars rest = true ->
  (exists child, In child (children (options ctx) (currentNode ctx))
                 /\ nodeName child = tagBuffer ctx +:+ rest) ->
  processChars {| context := ctx; currentState := TagName |} rest
  = ({| context := set_tagBuffer (tagBuffer ctx +:+ rest) ctx;
        currentState := TagName |}, []).
Proof.
  induction rest as [|c rest IH]; intros ctx Hchars Hchild.
  - simpl. rewrite string_append_empty. destruct ctx; reflexivity.
  - simpl in Hchars. apply andb_true_iff in Hchars as [[Hc1 Hc2]%andb_true_iff Hrest].
    cbn [processChars]. unfold stepChar, processChar, TagNameState_processChar.
    cbn [context currentState]. rewrite Hc1, Hc2. cbn [andb].
    assert (hasChildSchemaWithPrefix
              (set_tagBuffer (tagBuffer ctx +:+ str1 c) ctx)
              (tagBuffer (set_tagBuffer (tagBuffer ctx +:+ str1 c) ctx)) = true) as Hpre.
    { destruct Hchild as (child & Hin & Hname).
      unfold hasChildSchemaWithPrefix. apply existsb_exists. exists child.
      split; [destruct ctx; exact Hin|].
      rewrite Hname, append_cons_shift. destruct ctx; apply prefix_append. }
    rewrite Hpre. cbn [negb].
    rewrite IH; [| exact Hrest |].
    + destruct ctx; unfold set_tagBuffer; simpl.
      rewrite <- append_cons_shift. reflexivity.
    + destruct Hchild as (child & Hin & Hname). exists child.
      destruct ctx; simpl in *. rewrite <- append_cons_shift. auto.
Qed.

(** Reading the rest of the closing tag of the current node. *)
Lemma closingTag_reads rest : forall ctx,
  nameChars rest = true ->
  nodeName (currentNode ctx) = closingTagBuffer ctx +:+ rest ->
  processChars {| context := ctx; currentState := ClosingTag |} rest
  = ({| context := set_closingTagBuffer (closingTagBuffer ctx +:+ rest) ctx;
        currentState := ClosingTag |}, []).
Proof.
  induction rest as [|c rest IH]; intros ctx Hchars Hname.
  - simpl. rewrite string_append_empty. destruct ctx; reflexivity.
  - simpl in Hchars. apply andb_true_iff in Hchars as [[Hc1 Hc2]%andb_true_iff Hrest].
    cbn [processChars]. unfold stepChar, processChar, ClosingTagState_processChar.
    cbn [context currentState]. apply negb_true_iff in Hc1. rewrite Hc1.
    assert (currentNode (set_closingTagBuffer (closingTagBuffer ctx +:+ str1 c) ctx)
            = currentNode ctx) as Hnode by (destruct ctx; reflexivity).
    assert (closingTagBuffer (set_closingTagBuffer (closingTagBuffer ctx +:+ str1 c) ctx)
            = closingTagBuffer ctx +:+ str1 c) as Hctb by (destruct ctx; reflexivity).
    rewrite Hnode, Hctb, Hname, append_cons_shift, substring_append, String.eqb_refl.
    cbn [negb].
    rewrite IH; [| exact Hrest |].
    + destruct ctx; unfold set_closingTagBuffer; simpl.
      rewrite <- append_cons_shift. reflexivity.
    + rewrite Hnode, Hctb, Hname. apply append_cons_shift.
Qed.

(** Reading a parameter value. *)
Lemma paramValue_reads value : forall ctx,
  noFence value = true ->
  paramNameSet ctx = true ->
  processChars {| context := ctx; currentState := TextContent |} value
  = ({| context := set_paramValueBuffer (paramValueBuffer ctx +:+ value) ctx;
        currentState := TextContent |}, []).
Proof.
  induction value as [|c rest IH]; intros ctx Hplain Hset.
  - simpl. rewrite string_append_empty. destruct ctx; reflexivity.
  - simpl in Hplain. apply andb_true_iff in Hplain as [Hc Hrest].
    cbn [processChars]. unfold stepChar, processChar, TextContentState_processChar.
    cbn [context currentState]. apply negb_true_iff in Hc. rewrite Hc, Hset.
    rewrite IH; [| exact Hrest | destruct ctx; exact Hset].
    destruct ctx; unfold set_paramValueBuffer; simpl.
    rewrite <- append_cons_shift. reflexivity.
Qed.

Lemma findChildSchema_frame ctx ctx' tag :
  options ctx' = options ctx -> currentNode ctx' = currentNode ctx ->
  findChildSchema ctx' tag = findChildSchema ctx tag.
Proof. unfold findChildSchema. intros -> ->. reflexivity. Qed.

Lemma nameChars_first c rest :
  nameChars (String c rest) = true ->
  Ascii.eqb c ">" = false /\ isWhitespace c = false /\ nameChars rest = true.
Proof.
  simpl. intros [[H1 H2]%andb_true_iff H3]%andb_true_iff.
  apply negb_true_iff in H1, H2. auto.
Qed.

(** After the opening fence: a valid child tag name and ['>']. *)
Lemma tag_opens n ctx child :
  tagNameOk n = true ->
  findChildSchema ctx n = Some child ->
  processChars {| context := ctx; currentState := TagOpening |} (n +:+ ">")
  = let '(ctx', next, events) := handleValidTag (set_tagBuffer n ctx) child in
    ({| context := ctx'; currentState := next |}, events).
Proof.
  intros Hok Hfind. destruct n as [|c rest]; [discriminate|].
  simpl in Hok. apply andb_true_iff in Hok as [Hslash Hchars].
  apply negb_true_iff in Hslash.
  pose proof Hchars as Hchars'. apply andb_true_iff in Hchars' as [[Hgt Hws]%andb_true_iff Hrest].
  apply negb_true_iff in Hgt, Hws.
  change (String c rest +:+ ">") with (String c (rest +:+ ">")).
  cbn [processChars]. unfold stepChar at 1, processChar, TagOpeningState_processChar.
  cbn [context currentState]. rewrite Hslash, Hws.
  rewrite processChars_app.
  rewrite tagName_reads; [| exact Hrest |].
  - cbn [processChars]. unfold stepChar, processChar, TagNameState_processChar.
    cbn [context currentState].
    change (Ascii.eqb ">" ">") with true. cbn [negb andb orb].
    assert (tagBuffer (set_tagBuffer (tagBuffer (set_tagBuffer (str1 c) ctx) +:+ rest)
                         (set_tagBuffer (str1 c) ctx)) = String c rest) as Htg
      by (destruct ctx; reflexivity).
    rewrite Htg.
    rewrite (findChildSchema_frame ctx) by (destruct ctx; reflexivity).
    rewrite Hfind.
    assert (set_tagBuffer (tagBuffer (set_tagBuffer (str1 c) ctx) +:+ rest)
              (set_tagBuffer (str1 c) ctx) = set_tagBuffer (String c rest) ctx) as ->
      by (destruct ctx; reflexivity).
    destruct (handleValidTag _ child) as [[ctx' next] events].
    simpl. rewrite app_nil_r. reflexivity.
  - unfold findChildSchema in Hfind. apply List.find_some in Hfind as [Hin Hname].
    apply String.eqb_eq in Hname. exists child.
    destruct ctx; simpl in *. auto.
Qed.

(** After the opening fence: ['/'], the name of the current node and ['>']. *)
Lemma tag_closes n ctx :
  nameChars n = true ->
  nodeName (currentNode ctx) = n ->
  parent (currentNode ctx) <> None ->
  processChars {| context := ctx; currentState := TagOpening |} ("/" +:+ n +:+ ">")
  = let '(ctx', next, events) := processClosingTag (set_closingTagBuffer n ctx) in
    ({| context := ctx'; currentState := next |}, events).
Proof.
  intros Hchars Hname Hparent.
  change ("/" +:+ n +:+ ">") with (String "/" (n +:+ ">")).
  cbn [processChars]. unfold stepChar at 1, processChar, TagOpeningState_processChar.
  cbn [context currentState]. change (Ascii.eqb "/" "/") with true. cbv iota.
  destruct (parent (currentNode ctx)) eqn:Hp; [|contradiction].
  rewrite processChars_app.
  rewrite closingTag_reads; [| exact Hchars | destruct ctx; exact Hname].
  cbn [processChars]. unfold stepChar, processChar, ClosingTagState_processChar.
  cbn [context currentState]. change (Ascii.eqb ">" ">") with true. cbv iota.
  assert (set_closingTagBuffer (closingTagBuffer (set_closingTagBuffer "" ctx) +:+ n)
            (set_closingTagBuffer "" ctx) = set_closingTagBuffer n ctx) as ->
    by (destruct ctx; reflexivity).
  destruct (processClosingTag _) as [[ctx' next] events].
  simpl. rewrite app_nil_r. reflexivity.
Qed.

Lemma tagNameOk_nameChars n : tagNameOk n = true -> nameChars n = true.
Proof. destruct n; [discriminate|]. simpl. intros [_ H]%andb_true_iff. exact H. Qed.

Lemma tagNameOk_truthy n : tagNameOk n = true -> truthy n = true.
Proof. destruct n; [discriminate | reflexivity]. Qed.

Lemma stepChar_fence_textContent ctx :
  stepChar {| context := ctx; currentState := TextContent |} "<"
  = ({| context := set_tagBuffer "" ctx; currentState := TagOpening |}, []).
Proof. reflexivity. Qed.

Lemma param_round_trip opts tb t ps tu p v :
  p ∈ ps -> tagNameOk p = true -> noFence v = true ->
  processChars {| context := insideTool opts tb t ps tu; currentState := TextContent |}
               (renderParam (p, v))
  = ({| context := insideTool opts tb t ps
                     {| name := name tu; params := <[p := v]> (params tu);
                        partial := partial tu |};
        currentState := TextContent |}, []).
Proof.
  intros Hin Hok Hplain.
  change (renderParam (p, v))
    with (String "<" ((p +:+ ">") +:+ (v +:+ String "<" ("/" +:+ p +:+ ">")))).
  cbn [processChars]. rewrite stepChar_fence_textContent.
  rewrite processChars_app.
  rewrite (tag_opens p _ (ParamNode t ps p) Hok).
  2:{ rewrite findChildSchema_spec. simpl. rewrite decide_True by exact Hin. reflexivity. }
  unfold handleValidTag. cbn [parent].
  rewrite processChars_app.
  rewrite paramValue_reads; [| exact Hplain |].
  2:{ unfold paramNameSet. simpl. apply tagNameOk_truthy, Hok. }
  cbn [processChars]. rewrite stepChar_fence_textContent.
  rewrite tag_closes; [| apply tagNameOk_nameChars, Hok | reflexivity | discriminate].
  unfold processClosingTag, paramNameIs, storeCurrentParamValue, insideTool.
  simpl. rewrite !String.eqb_refl. simpl.
  rewrite (tagNameOk_truthy p Hok). simpl. reflexivity.
Qed.

Lemma args_round_trip opts tb t ps args : forall tu,
  Forall (fun arg => arg.1 ∈ ps /\ tagNameOk arg.1 = true /\ noFence arg.2 = true) args ->
  processChars {| context := insideTool opts tb t ps tu; currentState := TextContent |}
               (streamOf (map renderParam args))
  = ({| context := insideTool opts tb t ps
                     {| name := name tu; params := storeAll args (params tu);
                        partial := partial tu |};
        currentState := TextContent |}, []).
Proof.
  induction args as [|[p v] rest IH]; intros tu Hargs.
  - destruct tu; reflexivity.
  - inversion Hargs as [|? ? (Hin & Hok & Hplain) Hrest]; subst.
    cbn [map streamOf fold_right fst snd] in *.
    rewrite processChars_app, (param_round_trip opts tb t ps tu p v Hin Hok Hplain).
    rewrite (IH _ Hrest). reflexivity.
Qed.

Lemma tool_call_reads_back (opts : StreamingToolParserOptions)
    (pending tool : string) (args : list (string * string)) :
  tool ∈ validToolNames opts ->
  tagNameOk tool = true ->
  Forall (fun arg =>
            arg.1 ∈ default [] (validParamNamesByTool opts !! tool)
            /\ tagNameOk arg.1 = true /\ noFence arg.2 = true) args ->
  processChars {| context := set_textBuffer pending (newContext opts);
                  currentState := Text |}
               (renderTool tool args)
  = ({| context :=
          set_textBuffer (if truthy (trim pending) then EmptyString else pending)
                         (newContext opts);
        currentState := Text |},
     (if truthy (trim pending)
      then [BlockEvent (TextContentBlock (trim pending) false)] else [])
     ++ [BlockEvent (ToolUseBlock {| name := tool; params := storeAll args ∅;
                                     partial := false |})]).
Proof.
  intros Hin Hok Hargs.
  change (renderTool tool args)
    with (String "<" ((tool +:+ ">")
            +:+ (streamOf (map renderParam args) +:+ String "<" ("/" +:+ tool +:+ ">")))).
  cbn [processChars]. unfold stepChar at 1, processChar, TextState_processChar.
  cbn [context currentState]. change (Ascii.eqb "<" "<") with true. cbv iota.
  set (flushed := if truthy (trim pending) then EmptyString else pending).
  set (flush := if truthy (trim pending)
                then [BlockEvent (TextContentBlock (trim pending) false)] else []).
  assert ((if truthy (textBuffer (set_textBuffer pending (newContext opts)))
           then if truthy (trim (textBuffer (set_textBuffer pending (newContext opts))))
                then (set_textBuffer "" (set_textBuffer pending (newContext opts)),
                      [BlockEvent (TextContentBlock
                         (trim (textBuffer (set_textBuffer pending (newContext opts)))) false)])
                else (set_textBuffer pending (newContext opts), [])
           else (set_textBuffer pending (newContext opts), []))
          = (set_textBuffer flushed (newContext opts), flush)) as ->.
  { unfold flushed, flush. simpl. destruct pending as [|c pending']; [reflexivity|].
    simpl. destruct (truthy (trim (String c pending'))); reflexivity. }
  rewrite processChars_app.
  rewrite (tag_opens tool _ (ToolNode tool (default [] (validParamNamesByTool opts !! tool))) Hok).
  2:{ rewrite findChildSchema_spec. simpl. rewrite decide_True by exact Hin. reflexivity. }
  unfold handleValidTag. cbn [parent].
  change (set_tagBuffer "" _)
    with (insideTool opts flushed tool (default [] (validParamNamesByTool opts !! tool))
            {| name := tool; params := ∅; partial := true |}).
  rewrite processChars_app, (args_round_trip _ _ _ _ args _ Hargs).
  cbn [processChars]. rewrite stepChar_fence_textContent.
  rewrite tag_closes; [| apply tagNameOk_nameChars, Hok | reflexivity | discriminate].
  unfold processClosingTag, paramNameIs, insideTool. simpl.
  rewrite !String.eqb_refl. reflexivity.
Qed.

(** Round trip of one tool call.  A parser at the root holding [pending]
    text reads [<tool><p1>v1</p1>...</tool>], for a tool and parameters of
    the schema and values free of ['<'], as follows: the pending text is
    flushed as a final text block if it is not blank, then exactly one
    final tool-use block carries the tool name and the values, verbatim
    and whitespace included, the last value winning for a repeated
    parameter; no error is emitted and the parser is back at the root in
    [Text]. *)
Theorem tool_call_round_trip (opts : StreamingToolParserOptions)
    (pending tool : string) (args : list (string * string)) :
  tool ∈ validToolNames opts ->
  tagNameOk tool = true ->
  Forall (fun arg =>
            arg.1 ∈ default [] (validParamNamesByTool opts !! tool)
            /\ tagNameOk arg.1 = true /\ noFence arg.2 = true) args ->
  processChars {| context := set_textBuffer pending (newContext opts);
                  currentState := Text |}
               (renderTool tool args)
  = ({| context :=
          set_textBuffer (if truthy (trim pending) then EmptyString else pending)
                         (newContext opts);
        currentState := Text |},
     (if truthy (trim pending)
      then [BlockEvent (TextContentBlock (trim pending) false)] else [])
     ++ [BlockEvent (ToolUseBlock {| name := tool; params := storeAll args ∅;
                                     partial := false |})]).
Proof. exact (tool_call_reads_back opts pending tool args). Qed.

Lemma tool_call_round_trip_witness :
  processChars (newParser (readFileOptions false))
    "<read_file><path> a.txt </path><start_line>1</start_line><path>b</path></read_file>"
  = (newParser (readFileOptions false),
     [BlockEvent (ToolUseBlock
        {| name := "read_file";
           params := {[ "path" := "b"; "start_line" := "1" ]};
           partial := false |})]).
Proof.
  refine (eq_trans
    (tool_call_round_trip (readFileOptions false) "" "read_file"
       [("path", " a.txt "); ("start_line", "1"); ("path", "b")] _ _ _) _).
  - vm_compute. apply list_elem_of_here.
  - reflexivity.
  - repeat constructor; vm_compute; auto using list_elem_of_here, list_elem_of_further.
  - vm_compute. reflexivity.
Defined.

Lemma streamOf_cons chunk chunks : streamOf (chunk :: chunks) = chunk +:+ streamOf chunks.
Proof. reflexivity. Qed.

Lemma calls_stream opts calls :
  Forall (callOk opts) calls ->
  processChars (newParser opts) (streamOf (map (fun call => renderTool call.1 call.2) calls))
  = (newParser opts, map (fun call => BlockEvent (ToolUseBlock (toolUseOf call))) calls).
Proof.
  induction calls as [|[tool args] rest IH]; intros Hok; [reflexivity|].
  inversion Hok as [|? ? (Hin & Hname & Hargs) Hrest]; subst.
  cbn [map fst snd] in *. rewrite streamOf_cons, processChars_app.
  pose proof (tool_call_reads_back opts "" tool args Hin Hname Hargs) as Hone.
  change (set_textBuffer "" (newContext opts)) with (newContext opts) in Hone.
  change {| context := newContext opts; currentState := Text |} with (newParser opts) in Hone.
  change (if truthy (trim "") then "" else "") with "" in Hone.
  change (set_textBuffer "" (newContext opts)) with (newContext opts) in Hone.
  change {| context := newContext opts; currentState := Text |} with (newParser opts) in Hone.
  rewrite Hone. cbv beta iota. rewrite (IH Hrest). reflexivity.
Qed.

(** End to end: however a sequence of well-formed tool calls of the schema
    is cut into chunks (also in the middle of a tag), a fresh parser in
    either mode emits no error and, partial snapshots aside, exactly one
    final tool-use block per call, in order, with the rendered values. *)
Theorem tool_calls_any_chunking (opts : StreamingToolParserOptions)
    (calls : list (string * list (string * string))) (chunks : list string) :
  Forall (callOk opts) calls ->
  streamOf chunks = streamOf (map (fun call => renderTool call.1 call.2) calls) ->
  nonPartial (runSession (newParser opts) chunks).2
  = map (fun call => BlockEvent (ToolUseBlock (toolUseOf call))) calls.
Proof.
  intros Hok Hstream.
  rewrite runSession_stream, Hstream.
  unfold runSession. cbn [processChunks]. unfold processChunk.
  rewrite (calls_stream opts calls Hok).
  change (emitPartialAtChunkEnd (newParser opts)) with (newParser opts, @nil ParserEvent).
  cbv beta iota.
  change (finalize (newParser opts)) with (newParser opts, @nil ParserEvent).
  cbv beta iota. cbn [snd]. rewrite !app_nil_r.
  clear. induction calls as [|call rest IH]; [reflexivity|].
  cbn [map]. unfold nonPartial in *. cbn. f_equal. exact IH.
Qed.

Lemma tool_calls_any_chunking_witness :
  nonPartial (runSession (newParser (readFileOptions false))
                ["<read_"; "file><pa"; "th>x y</path></read_file>";
                 "<read_file></read_file>"]).2
  = [BlockEvent (ToolUseBlock
       {| name := "read_file"; params := {[ "path" := "x y" ]}; partial := false |});
     BlockEvent (ToolUseBlock
       {| name := "read_file"; params := ∅; partial := false |})].
Proof.
  refine (eq_trans
    (tool_calls_any_chunking (readFileOptions false)
       [("read_file", [("path", "x y")]); ("read_file", [])]
       ["<read_"; "file><pa"; "th>x y</path></read_file>"; "<read_file></read_file>"]
       _ _) _).
  - repeat constructor; vm_compute; auto using list_elem_of_here, list_elem_of_further.
  - vm_compute. reflexivity.
  - vm_compute. reflexivity.
Defined.

(** ** The schema is honoured *)

Ltac learn_child_in :=
  repeat match goal with
  | H : findChildSchema _ _ = Some _ |- _ =>
      rewrite findChildSchema_spec in H; simpl in H;
      try (destruct (decide _) in H; [|discriminate H]);
      first [discriminate H | apply (inj Some) in H; subst]
  end.

Lemma toolUseInSchema_insert opts tu p v b :
  toolUseInSchema opts tu ->
  p ∈ paramsOfTool opts (name tu) ->
  toolUseInSchema opts {| name := name tu; params := <[p := v]> (params tu);
                          partial := b |}.
Proof.
  intros [Hname Hkeys] Hp. split; [exact Hname|]. simpl. intros key Hsome.
  destruct (decide (p = key)) as [<-|Hne]; [exact Hp|].
  rewrite lookup_insert_ne in Hsome by exact Hne. auto.
Qed.

Lemma toolUseInSchema_fresh opts t :
  t ∈ validToolNames opts ->
  toolUseInSchema opts {| name := t; params := ∅; partial := true |}.
Proof.
  intros Hin. split; [exact Hin|]. simpl. intros key [v Hv].
  rewrite lookup_empty in Hv. discriminate Hv.
Qed.

Lemma toolUseInSchema_partial opts tu b :
  toolUseInSchema opts tu ->
  toolUseInSchema opts {| name := name tu; params := params tu; partial := b |}.
Proof. intros H. exact H. Qed.

Ltac stored_in_schema Htool :=
  try (intros ? [= <-]); apply toolUseInSchema_insert; [apply Htool; reflexivity|];
  match goal with H : ex _ |- _ => destruct H as (? & [= <-] & <-) end; assumption.

Lemma stepChar_withinSchema opts parser char :
  coherent parser -> withinSchema opts parser ->
  withinSchema opts (stepChar parser char).1
  /\ Forall (eventInSchema opts) (stepChar parser char).2.
Proof.
  destruct parser as [[tb tg pvb ctb node ctu cpn o] st].
  unfold coherent, withinSchema, stepChar; simpl.
  intros [Hnode Hstate] (-> & Hschema & Htool).
  destruct node; simpl in *; destruct_and?; subst;
    destruct st; unfold_states; simpl.
  all: repeat (case_inner; simpl); tidy; simpl in *; learn_child_in; tidy.
  all: split; [repeat apply conj; try reflexivity; try assumption
                | repeat (apply List.Forall_cons; [simpl|]); try apply List.Forall_nil; try exact I].
  all: try solve [intros ? [=]].
  all: try solve [intros ? [= <-]; eauto using toolUseInSchema_fresh, toolUseInSchema_insert].
  all: try solve [apply toolUseInSchema_partial, Htool; reflexivity].
  all: stored_in_schema Htool.
Qed.

Lemma emitPartialAtChunkEnd_withinSchema opts parser :
  coherent parser -> withinSchema opts parser ->
  withinSchema opts (emitPartialAtChunkEnd parser).1
  /\ Forall (eventInSchema opts) (emitPartialAtChunkEnd parser).2.
Proof.
  destruct parser as [[tb tg pvb ctb node ctu cpn o] st].
  unfold coherent, withinSchema, emitPartialAtChunkEnd, storeCurrentParamValue; simpl.
  intros [Hnode Hstate] (-> & Hschema & Htool).
  destruct node; simpl in *; destruct_and?; subst.
  all: repeat (case_inner; simpl); tidy; simpl in *.
  all: split; [repeat apply conj; try reflexivity; try assumption
              | repeat (apply List.Forall_cons; [simpl|]); try apply List.Forall_nil;
                try exact I].
  all: try solve [intros ? [=]].
  all: try solve [apply toolUseInSchema_partial, Htool; reflexivity].
  all: try solve [intros ? [= <-]; apply Htool; reflexivity].
  all: stored_in_schema Htool.
Qed.

Lemma newParser_withinSchema opts : withinSchema opts (newParser opts).
Proof. split; [reflexivity|]. split; [exact I|]. intros tu [=]. Qed.

Lemma processChars_withinSchema opts chunk : forall parser,
  coherent parser -> withinSchema opts parser ->
  coherent (processChars parser chunk).1
  /\ withinSchema opts (processChars parser chunk).1
  /\ Forall (eventInSchema opts) (processChars parser chunk).2.
Proof.
  induction chunk as [|char rest IH]; intros parser Hc Hs; simpl.
  - split; [exact Hc|]. split; [exact Hs|]. constructor.
  - pose proof (stepChar_coherent parser char Hc) as Hc'.
    destruct (stepChar_withinSchema opts parser char Hc Hs) as [Hs' He].
    destruct (stepChar parser char) as [parser' events]. simpl in *.
    destruct (IH parser' Hc' Hs') as (Hc'' & Hs'' & He').
    destruct (processChars parser' rest) as [parser'' events']. simpl in *.
    split; [exact Hc''|]. split; [exact Hs''|]. apply Forall_app; auto.
Qed.

Lemma processChunks_withinSchema opts chunks : forall parser,
  coherent parser -> withinSchema opts parser ->
  coherent (processChunks parser chunks).1
  /\ withinSchema opts (processChunks parser chunks).1
  /\ Forall (eventInSchema opts) (processChunks parser chunks).2.
Proof.
  induction chunks as [|chunk rest IH]; intros parser Hc Hs; simpl.
  - split; [exact Hc|]. split; [exact Hs|]. constructor.
  - unfold processChunk.
    destruct (processChars_withinSchema opts chunk parser Hc Hs) as (Hc1 & Hs1 & He1).
    destruct (processChars parser chunk) as [parser1 events]. simpl in *.
    pose proof (emitPartialAtChunkEnd_coherent parser1 Hc1) as Hc2.
    destruct (emitPartialAtChunkEnd_withinSchema opts parser1 Hc1 Hs1) as [Hs2 He2].
    destruct (emitPartialAtChunkEnd parser1) as [parser2 snapshot]. simpl in *.
    destruct (IH parser2 Hc2 Hs2) as (Hc3 & Hs3 & He3).
    destruct (processChunks parser2 rest) as [parser3 events']. simpl in *.
    split; [exact Hc3|]. split; [exact Hs3|]. repeat (apply Forall_app; split); auto.
Qed.

(** Every tool-use block a fresh parser ever emits, partial or final, in
    either mode and on any input, names a tool of [validToolNames] and
    holds only parameters registered for that tool in
    [validParamNamesByTool]. *)
Theorem emitted_tool_uses_honour_schema (opts : StreamingToolParserOptions)
    (chunks : list string) :
  Forall (eventInSchema opts) (runSession (newParser opts) chunks).2.
Proof.
  unfold runSession.
  destruct (processChunks_withinSchema opts chunks (newParser opts)
              (newParser_coherent opts) (newParser_withinSchema opts)) as (_ & _ & He).
  destruct (processChunks (newParser opts) chunks) as [parser events]. simpl in *.
  pose proof (finalize_events parser) as Hf.
  destruct (finalize parser) as [parser' final]. simpl in *.
  apply Forall_app; split; [exact He|]. rewrite Hf.
  case_match; repeat constructor.
Qed.

(** * The superfluous-duplicated-line engine *)

Section Engine.
Import SuperfluousDuplicatedLineEngine.

Lemma lineAt_drop lines (k : nat) (i : Z) :
  (0 <= i)%Z ->
  lineAt lines (Z.of_nat k + i) = drop k lines !! Z.to_nat i.
Proof.
  intros Hi. unfold lineAt.
  destruct (Z.ltb_spec (Z.of_nat k + i) 0); [lia|].
  rewrite lookup_drop. f_equal. lia.
Qed.

Lemma drop_head {A} (l : list A) n x rest : drop n l = x :: rest -> l !! n = Some x.
Proof.
  intros H. pose proof (lookup_drop l n 0) as Hl. rewrite H, Nat.add_0_r in Hl.
  symmetry. exact Hl.
Qed.

Lemma drop_tail {A} (l : list A) n x rest : drop n l = x :: rest -> drop (S n) l = rest.
Proof.
  revert l. induction n as [|n IH]; intros l H.
  - destruct l as [|y l]; [discriminate H|]. injection H as _ ->. reflexivity.
  - destruct l as [|y l]; [discriminate H|]. apply (IH l), H.
Qed.

Lemma countMatching_run replaceLines originalLines (sl se : nat) remaining :
  forall (i : nat),
  countMatching replaceLines originalLines (Z.of_nat sl) (Z.of_nat se) remaining (Z.of_nat i)
  = Z.of_nat (i + Nat.min remaining
                    (commonRun (drop (sl + i) replaceLines) (drop (se + i) originalLines))).
Proof.
  induction remaining as [|remaining IH]; intros i.
  - simpl. f_equal. lia.
  - cbn [countMatching].
    rewrite <- !Nat2Z.inj_add.
    unfold lineAt at 1 2.
    destruct (Z.ltb_spec (Z.of_nat (sl + i)) 0); [lia|].
    destruct (Z.ltb_spec (Z.of_nat (se + i)) 0); [lia|].
    rewrite !Nat2Z.id.
    destruct (drop (sl + i) replaceLines) as [|x a'] eqn:Ha.
    { assert (replaceLines !! (sl + i) = None) as ->.
      { apply lookup_ge_None. apply drop_nil_inv in Ha. exact Ha. }
      simpl. f_equal. lia. }
    rewrite (drop_head _ _ _ _ Ha).
    destruct (drop (se + i) originalLines) as [|y b'] eqn:Hb.
    { assert (originalLines !! (se + i) = None) as ->.
      { apply lookup_ge_None. apply drop_nil_inv in Hb. exact Hb. }
      simpl. f_equal. lia. }
    rewrite (drop_head _ _ _ _ Hb).
    cbn [commonRun].
    destruct (linesMatch (Some x) (Some y)).
    + change (Z.of_nat i + 1)%Z with (Z.of_nat i + Z.of_nat 1)%Z.
      rewrite <- Nat2Z.inj_add, IH.
      replace (sl + (i + 1)) with (S (sl + i)) by lia.
      replace (se + (i + 1)) with (S (se + i)) by lia.
      rewrite (drop_tail _ _ _ _ Ha), (drop_tail _ _ _ _ Hb).
      f_equal. lia.
    + f_equal. lia.
Qed.

Lemma splitLines_length s : 1 <= List.length (splitLines s).
Proof.
  induction s as [|c rest IH]; [simpl; lia|].
  cbn [splitLines]. destruct (Ascii.eqb c LF); [simpl; lia|].
  assert (1 <= List.length match splitLines rest with
                           | line :: lines => String c line :: lines
                           | [] => [str1 c]
                           end) as Hcont.
  { destruct (splitLines rest); simpl in *; lia. }
  destruct rest as [|d rest']; [exact Hcont|].
  destruct (Ascii.eqb c CR && Ascii.eqb d LF); [simpl; lia | exact Hcont].
Qed.

Lemma commonRun_le a : forall b,
  commonRun a b <= List.length a /\ commonRun a b <= List.length b.
Proof.
  induction a as [|x a IH]; intros b; [simpl; lia|].
  destruct b as [|y b]; [simpl; lia|].
  cbn [commonRun]. destruct (linesMatch (Some x) (Some y)); [|simpl; lia].
  specialize (IH b). simpl. lia.
Qed.

Lemma process_run (originalContent : string)
    (ctx : SearchReplaceContext) :
  let searchLines := splitLines (searchContent ctx) in
  let replaceLines := splitLines (replaceContent ctx) in
  let originalLines := splitLines originalContent in
  let searched := List.length searchLines in
  process originalContent ctx
  = if (0 <? startLine ctx)%Z
       && Nat.ltb searched (List.length replaceLines)
       && String.eqb (joinLines (firstn searched replaceLines)) (searchContent ctx)
    then Z.of_nat (commonRun (drop searched replaceLines)
                             (drop (Z.to_nat (startLine ctx - 1) + searched)
                                   originalLines))
    else 0%Z.
Proof.
  intros searchLines replaceLines originalLines searched. unfold process.
  fold searchLines replaceLines originalLines. fold searched.
  pose proof (splitLines_length (searchContent ctx)) as Hlen.
  fold searchLines in Hlen. fold searched in Hlen.
  destruct (Z.ltb_spec 0 (Z.of_nat searched)); [|lia]. cbn [andb].
  destruct (Z.ltb_spec (Z.of_nat searched) (Z.of_nat (List.length replaceLines)));
    destruct (Nat.ltb_spec searched (List.length replaceLines)); try lia;
    [|destruct (0 <? startLine ctx)%Z; reflexivity].
  destruct (Z.ltb_spec 0 (startLine ctx)); [|reflexivity]. cbn [andb].
  destruct (Z.ltb_spec (Z.of_nat searched) (Z.of_nat (List.length replaceLines))); [|lia].
  destruct (String.eqb _ _); [|reflexivity]. cbn [andb].
  replace (startLine ctx - 1 + Z.of_nat searched)%Z
    with (Z.of_nat (Z.to_nat (startLine ctx - 1) + searched)) by lia.
  rewrite (countMatching_run replaceLines originalLines searched _ _ 0).
  rewrite !Nat.add_0_r.
  set (se := Z.to_nat (startLine ctx - 1) + searched).
  pose proof (commonRun_le (drop searched replaceLines) (drop se originalLines)) as [Ha Hb].
  rewrite !length_drop in *.
  rewrite Nat.min_r by lia. cbn [Nat.add].
  destruct (Z.ltb_spec 0 (Z.of_nat (commonRun (drop searched replaceLines)
                                              (drop se originalLines)))); lia.
Qed.


(** The result is never negative, and a positive result stays within both
    texts: that many lines exist in the replacement after the search block
    and in the original after the searched block. *)
Theorem process_within_bounds (originalContent : string)
    (ctx : SearchReplaceContext) :
  let consumed := process originalContent ctx in
  let searched := Z.of_nat (List.length (splitLines (searchContent ctx))) in
  (0 <= consumed)%Z
  /\ ((0 < consumed)%Z ->
      (0 < startLine ctx)%Z
      /\ (searched + consumed
          <= Z.of_nat (List.length (splitLines (replaceContent ctx))))%Z
      /\ (startLine ctx - 1 + searched + consumed
          <= Z.of_nat (List.length (splitLines originalContent)))%Z).
Proof.
  intros consumed searched. unfold consumed.
  rewrite process_run.
  destruct (Z.ltb_spec 0 (startLine ctx)); cbn [andb]; [|lia].
  destruct (_ && _); [|lia].
  match goal with |- context [commonRun ?a ?b] =>
    pose proof (commonRun_le a b) as [Ha Hb] end.
  rewrite !length_drop in *. unfold searched. lia.
Qed.

Lemma splitLines_clean_append a rest :
  cleanLine a = true ->
  splitLines (a +:+ String LF rest) = a :: splitLines rest.
Proof.
  induction a as [|c a IH]; intros Hclean.
  - reflexivity.
  - simpl in Hclean. apply andb_true_iff in Hclean as [[Hlf Hcr]%andb_true_iff Hrest].
    apply negb_true_iff in Hlf, Hcr.
    change (String c a +:+ String LF rest) with (String c (a +:+ String LF rest)).
    cbn [splitLines]. rewrite Hlf, Hcr, (IH Hrest). cbn [andb].
    destruct (a +:+ String LF rest); reflexivity.
Qed.

Lemma splitLines_clean a : cleanLine a = true -> splitLines a = [a].
Proof.
  induction a as [|c a IH]; intros Hclean; [reflexivity|].
  simpl in Hclean. apply andb_true_iff in Hclean as [[Hlf Hcr]%andb_true_iff Hrest].
  apply negb_true_iff in Hlf, Hcr.
  cbn [splitLines]. rewrite Hlf, Hcr, (IH Hrest). cbn [andb].
  destruct a; reflexivity.
Qed.

Lemma splitLines_joinLines lines :
  lines <> [] ->
  Forall (fun line => cleanLine line = true) lines ->
  splitLines (joinLines lines) = lines.
Proof.
  induction lines as [|line rest IH]; intros Hne Hclean; [contradiction|].
  inversion Hclean as [|? ? Hline Hrest]; subst.
  destruct rest as [|next rest'].
  - apply splitLines_clean, Hline.
  - change (joinLines (line :: next :: rest'))
      with (line +:+ String LF (joinLines (next :: rest'))).
    rewrite (splitLines_clean_append _ _ Hline), IH; [reflexivity | discriminate | exact Hrest].
Qed.

(** On texts given as lines free of line breaks: when the replacement is
    the search block followed by [extra] lines, the result is the length of
    the longest run of leading [extra] lines that repeat the original lines
    following the searched block. *)
Theorem process_detects_repeated_lines (original searched extra : list string)
    (start : Z) :
  (0 < start)%Z ->
  original <> [] -> searched <> [] ->
  Forall (fun line => cleanLine line = true) (original ++ searched ++ extra) ->
  process (joinLines original)
          {| startLine := start; searchContent := joinLines searched;
             replaceContent := joinLines (searched ++ extra) |}
  = Z.of_nat (commonRun extra
                (drop (Z.to_nat (start - 1) + List.length searched) original)).
Proof.
  intros Hstart Horiginal Hsearched Hclean.
  apply Forall_app in Hclean as [Ho Hclean].
  pose proof Hclean as Hreplace. apply Forall_app in Hclean as [Hs He].
  rewrite process_run. cbn [startLine searchContent replaceContent].
  rewrite (splitLines_joinLines original Horiginal Ho).
  rewrite (splitLines_joinLines searched Hsearched Hs).
  rewrite (splitLines_joinLines (searched ++ extra)); [| | exact Hreplace].
  2:{ destruct searched; [contradiction | discriminate]. }
  destruct (Z.ltb_spec 0 start); [|lia]. cbn [andb].
  rewrite take_app_length, String.eqb_refl, andb_true_r, drop_app_length.
  rewrite length_app.
  destruct (Nat.ltb_spec (List.length searched) (List.length searched + List.length extra));
    [reflexivity|].
  destruct extra; [reflexivity | simpl in *; lia].
Qed.

Lemma process_within_bounds_witness :
  let original := "one" +:+ String LF ("two" +:+ String LF (" three " +:+ String LF "four")) in
  let ctx := {| startLine := 1; searchContent := "one";
                replaceContent := "one" +:+ String LF ("two" +:+ String LF "three") |} in
  process original ctx = 2%Z
  /\ (1 + process original ctx
      <= Z.of_nat (List.length (splitLines (replaceContent ctx))))%Z
  /\ (1 - 1 + 1 + process original ctx
      <= Z.of_nat (List.length (splitLines original)))%Z.
Proof.
  intros original ctx.
  assert (process original ctx = 2%Z) as Hvalue by (vm_compute; reflexivity).
  split; [exact Hvalue|].
  destruct (process_within_bounds original ctx) as [_ Hpos].
  destruct Hpos as (_ & Hreplace & Horiginal); [rewrite Hvalue; lia|].
  split; [exact Hreplace | exact Horiginal].
Defined.

Lemma process_detects_repeated_lines_witness :
  process (joinLines ["a"; "b"; "c "; ""; "e"])
          {| startLine := 1; searchContent := joinLines ["a"];
             replaceContent := joinLines (["a"] ++ ["b"; " c"; ""; "e"]) |}
  = 2%Z.
Proof.
  refine (eq_trans
    (process_detects_repeated_lines ["a"; "b"; "c "; ""; "e"] ["a"]
       ["b"; " c"; ""; "e"] 1 _ _ _ _) _).
  - lia.
  - discriminate.
  - discriminate.
  - repeat constructor.
  - vm_compute. reflexivity.
Defined.

End Engine.

(** * Layout inside a tool *)

Lemma whitespace_not_fence c : isWhitespace c = true -> Ascii.eqb c "<" = false.
Proof.
  intros Hws. destruct (Ascii.eqb_spec c "<") as [->|]; [|reflexivity].
  vm_compute in Hws. discriminate Hws.
Qed.

(** Whitespace directly inside a tool, between its parameter tags, is
    dropped: with a tool node current and no parameter open, in [Text] or
    [TextContent] and in either mode, a run of whitespace emits nothing and
    leaves every buffer and the state as they were. *)
Theorem tool_interior_whitespace_is_dropped (parser : StreamingToolParser)
    (t : string) (ps : list string) (gap : string) :
  currentNode (context parser) = ToolNode t ps ->
  currentParamName (context parser) = None ->
  currentState parser = Text \/ currentState parser = TextContent ->
  allWhitespace gap = true ->
  processChars parser gap = (parser, []).
Proof.
  intros Hnode Hparam Hstate. induction gap as [|c rest IH]; intros Hgap; [reflexivity|].
  simpl in Hgap. apply andb_true_iff in Hgap as [Hc Hrest].
  pose proof (whitespace_not_fence c Hc) as Hfence.
  cbn [processChars].
  assert (stepChar parser c = (parser, [])) as ->.
  { destruct parser as [ctx st]. simpl in *. unfold stepChar. cbn [context currentState].
    destruct Hstate as [-> | ->]; unfold processChar, TextState_processChar,
      TextContentState_processChar, paramNameSet, canContainText;
      rewrite Hfence, ?Hparam, Hnode, Hc; reflexivity. }
  rewrite (IH Hrest). reflexivity.
Qed.

Lemma tool_interior_whitespace_is_dropped_witness :
  let parser :=
    (processChars (newParser (readFileOptions false)) "<read_file><path>a</path>").1 in
  processChars parser (String (ascii_of_nat 10) "  ") = (parser, []).
Proof.
  intros parser.
  apply (tool_interior_whitespace_is_dropped parser "read_file"
           ["path"; "start_line"; "end_line"]).
  - vm_compute. reflexivity.
  - vm_compute. reflexivity.
  - right. vm_compute. reflexivity.
  - vm_compute. reflexivity.
Defined.

(** * The context-returning version of the engine *)

Section EngineV0.
Import SuperfluousDuplicatedLineEngine.

Lemma lineAt_in_range lines (index : Z) :
  (0 <= index < Z.of_nat (List.length lines))%Z -> is_Some (lineAt lines index).
Proof.
  intros [Hlo Hhi]. unfold lineAt. destruct (Z.ltb_spec index 0); [lia|].
  apply lookup_lt_is_Some. lia.
Qed.

Lemma extended_lines_exist (originalContent : string) (ctx : SearchReplaceContext) :
  let searched := Z.of_nat (List.length (splitLines (searchContent ctx))) in
  (searched < Z.of_nat (List.length (splitLines (replaceContent ctx))))%Z ->
  (0 < startLine ctx)%Z ->
  (startLine ctx - 1 + searched < Z.of_nat (List.length (splitLines originalContent)))%Z ->
  is_Some (lineAt (splitLines (replaceContent ctx)) searched)
  /\ is_Some (lineAt (splitLines originalContent) (startLine ctx - 1 + searched)).
Proof.
  intros searched Hreplace Hstart Horiginal. split; apply lineAt_in_range; lia.
Qed.


(** The two versions agree on detection: whenever the counting version
    reports at least one line to consume, the context-returning version
    extends the search content by the (non-empty) original line that
    follows the searched block. *)
Theorem counted_line_extends_search (originalContent : string)
    (ctx : SearchReplaceContext) :
  (0 < process originalContent ctx)%Z ->
  exists inOriginal,
    lineAt (splitLines originalContent)
           (startLine ctx - 1 + Z.of_nat (List.length (splitLines (searchContent ctx))))
    = Some inOriginal
    /\ inOriginal <> EmptyString
    /\ SuperfluousDuplicatedLineEngineV0.process originalContent ctx
       = {| startLine := startLine ctx;
            searchContent := searchContent ctx +:+ String LF inOriginal;
            replaceContent := replaceContent ctx |}.
Proof.
  rewrite process_run. unfold SuperfluousDuplicatedLineEngineV0.process.
  pose proof (splitLines_length (searchContent ctx)) as Hlen.
  set (searchLines := splitLines (searchContent ctx)) in *.
  set (replaceLines := splitLines (replaceContent ctx)) in *.
  set (originalLines := splitLines originalContent) in *.
  destruct (Z.ltb_spec 0 (startLine ctx)) as [Hstart|]; cbn [andb]; [|lia].
  destruct (Nat.ltb_spec (List.length searchLines) (List.length replaceLines)) as [Hmore|];
    cbn [andb]; [|lia].
  destruct (String.eqb _ _); [|lia].
  set (se := Z.to_nat (startLine ctx - 1) + List.length searchLines).
  destruct (drop (List.length searchLines) replaceLines) as [|x a] eqn:Ha; [simpl; lia|].
  destruct (drop se originalLines) as [|y b] eqn:Hb; [simpl; lia|].
  cbn [commonRun]. destruct (linesMatch (Some x) (Some y)) eqn:Hmatch; [intros _|lia].
  apply drop_head in Ha, Hb.
  pose proof (lookup_lt_Some _ _ _ Hb) as Hrange.
  destruct (Z.ltb_spec 0 (Z.of_nat (List.length searchLines))); [|lia].
  destruct (Z.ltb_spec (Z.of_nat (List.length searchLines))
                       (Z.of_nat (List.length replaceLines))); [|lia].
  cbn [andb].
  assert (startLine ctx - 1 + Z.of_nat (List.length searchLines) = Z.of_nat se)%Z
    as -> by (unfold se; lia).
  destruct (Z.ltb_spec (Z.of_nat se) (Z.of_nat (List.length originalLines))); [|lia].
  unfold lineAt.
  destruct (Z.ltb_spec (Z.of_nat (List.length searchLines)) 0); [lia|].
  destruct (Z.ltb_spec (Z.of_nat se) 0); [lia|].
  rewrite !Nat2Z.id, Ha, Hb.
  unfold linesMatch in Hmatch.
  apply andb_true_iff in Hmatch as [[Hx Hy]%andb_true_iff Htrim].
  rewrite Htrim. exists y. split; [reflexivity|]. split; [|reflexivity].
  apply truthy_nonempty, Hy.
Qed.

Lemma counted_line_extends_search_witness :
  let original := "one" +:+ String LF ("two" +:+ String LF "three") in
  let ctx := {| startLine := 1; searchContent := "one";
                replaceContent := "one" +:+ String LF " two" |} in
  SuperfluousDuplicatedLineEngineV0.process original ctx
  = {| startLine := 1; searchContent := "one" +:+ String LF "two";
       replaceContent := "one" +:+ String LF " two" |}.
Proof.
  intros original ctx.
  destruct (counted_line_extends_search original ctx) as (line & Hline & _ & Hresult).
  - vm_compute. reflexivity.
  - rewrite Hresult. vm_compute in Hline. injection Hline as <-. reflexivity.
Defined.

End EngineV0.

Section Preprocess.
Import SuperfluousDuplicatedLineEngine WriteToFileTool.

Lemma splitNewlines_nonempty s : splitNewlines s <> [].
Proof.
  destruct s as [|c rest]; [discriminate|]. cbn [splitNewlines].
  destruct (Ascii.eqb c LF); [discriminate|]. destruct (splitNewlines rest); discriminate.
Qed.

Lemma splitNewlines_line a : noLineFeed a = true -> splitNewlines a = [a].
Proof.
  induction a as [|c a IH]; intros Hline; [reflexivity|].
  simpl in Hline. apply andb_true_iff in Hline as [Hc Hrest]. apply negb_true_iff in Hc.
  cbn [splitNewlines]. rewrite Hc, (IH Hrest). reflexivity.
Qed.

Lemma splitNewlines_append a b :
  splitNewlines (a +:+ String LF b) = splitNewlines a ++ splitNewlines b.
Proof.
  induction a as [|c a IH].
  - reflexivity.
  - change (String c a +:+ String LF b) with (String c (a +:+ String LF b)).
    cbn [splitNewlines]. destruct (Ascii.eqb c LF).
    + rewrite IH. reflexivity.
    + rewrite IH. pose proof (splitNewlines_nonempty a) as Hne.
      destruct (splitNewlines a); [contradiction | reflexivity].
Qed.

Lemma joinLines_cons line lines :
  lines <> [] -> joinLines (line :: lines) = line +:+ String LF (joinLines lines).
Proof. destruct lines; [contradiction | reflexivity]. Qed.

Lemma joinLines_splitNewlines s : joinLines (splitNewlines s) = s.
Proof.
  induction s as [|c rest IH]; [reflexivity|].
  cbn [splitNewlines]. destruct (Ascii.eqb_spec c LF) as [->|Hne].
  - rewrite joinLines_cons by apply splitNewlines_nonempty. rewrite IH. reflexivity.
  - pose proof (splitNewlines_nonempty rest) as Hrest.
    destruct (splitNewlines rest) as [|line lines]; [contradiction|].
    destruct lines as [|next lines'].
    + simpl in *. rewrite IH. reflexivity.
    + rewrite joinLines_cons by discriminate.
      rewrite joinLines_cons in IH by discriminate.
      rewrite <- IH. reflexivity.
Qed.

Lemma endsWith_append a x : endsWith x (a +:+ x) = true.
Proof.
  induction a as [|c a IH].
  - change (EmptyString +:+ x) with x.
    destruct x; cbn [endsWith]; rewrite String.eqb_refl; reflexivity.
  - change (String c a +:+ x) with (String c (a +:+ x)). cbn [endsWith].
    rewrite IH. apply orb_true_r.
Qed.

Lemma trimStart_append_blank a b : trimStart a = EmptyString -> trimStart (a +:+ b) = trimStart b.
Proof.
  induction a as [|c a IH]; intros Hblank; [reflexivity|].
  change (String c a +:+ b) with (String c (a +:+ b)). simpl in *.
  destruct (isWhitespace c); [exact (IH Hblank) | discriminate].
Qed.

Lemma trimStart_append a b : trimStart a <> EmptyString -> trimStart (a +:+ b) = trimStart a +:+ b.
Proof.
  induction a as [|c a IH]; intros Hsome; [contradiction|].
  change (String c a +:+ b) with (String c (a +:+ b)). simpl in *.
  destruct (isWhitespace c); [exact (IH Hsome) | reflexivity].
Qed.

Lemma trimEnd_append a b : trimEnd b <> EmptyString -> trimEnd (a +:+ b) = a +:+ trimEnd b.
Proof.
  intros Hsome. induction a as [|c a IH]; [reflexivity|].
  change (String c a +:+ b) with (String c (a +:+ b)).
  rewrite trimEnd_cons, IH.
  change (String c a +:+ trimEnd b) with (String c (a +:+ trimEnd b)).
  destruct (a +:+ trimEnd b) eqn:Happ; [|reflexivity].
  destruct a; [|discriminate]. simpl in Happ. contradiction.
Qed.

Lemma noLineFeed_append a b :
  noLineFeed a = true -> noLineFeed b = true -> noLineFeed (a +:+ b) = true.
Proof.
  intros Ha Hb. induction a as [|c a IH]; [exact Hb|].
  change (String c a +:+ b) with (String c (a +:+ b)). simpl in *.
  apply andb_true_iff in Ha as [Hc Ha]. rewrite Hc, (IH Ha). reflexivity.
Qed.

Lemma take_all_but_last {A} (l : list A) x : take (List.length (l ++ [x]) - 1) (l ++ [x]) = l.
Proof.
  rewrite length_app. simpl. replace (List.length l + 1 - 1) with (List.length l) by lia.
  apply take_app_length.
Qed.

(** preprocessContent of writeToFileTool: a content wrapped in a markdown
    fence (an opening fence line with an optional language tag free of line
    feeds, a body, a closing fence on a line of its own) comes out as the
    trimmed body, passed through unescapeHtmlEntities exactly when the model
    is not a Claude model. *)
Theorem fenced_block_is_unwrapped (isClaudeModel : bool)
    (unescapeHtmlEntities : string -> string) (lang body : string) :
  noLineFeed lang = true ->
  preprocessContent isClaudeModel unescapeHtmlEntities
    (fence +:+ lang +:+ String LF (body +:+ String LF fence))
  = if isClaudeModel then trim body else unescapeHtmlEntities (trim body).
Proof.
  intros Hlang. unfold preprocessContent.
  rewrite prefix_append.
  rewrite <- (string_append_assoc fence lang), splitNewlines_append.
  rewrite (splitNewlines_line (fence +:+ lang))
    by (apply noLineFeed_append; [reflexivity | exact Hlang]).
  cbn [app drop]. rewrite drop_0, joinLines_splitNewlines.
  assert (trim (body +:+ String LF fence) = trimStart body +:+
            (if truthy (trimStart body) then String LF fence else fence)) as Hfirst.
  { unfold trim. destruct (trimStart body) as [|c tb] eqn:Htb.
    - rewrite (trimStart_append_blank _ _ Htb). reflexivity.
    - rewrite trimStart_append by (rewrite Htb; discriminate). rewrite Htb.
      rewrite trimEnd_append by (vm_compute; discriminate). reflexivity. }
  rewrite Hfirst. clear Hfirst.
  assert (trim (trimStart body) = trim body) as Htrim.
  { unfold trim. rewrite (trimStart_fixed (trimStart body)) by apply trimStart_noLeading.
    reflexivity. }
  destruct (trimStart body) as [|c tb] eqn:Htb.
  - cbn [truthy]. change (EmptyString +:+ fence) with fence.
    change (endsWith fence fence) with true. cbv iota.
    change (splitNewlines fence) with [fence]. cbn [List.length Nat.sub take joinLines].
    rewrite <- Htrim. destruct isClaudeModel; reflexivity.
  - cbn [truthy].
    assert (endsWith fence (String c tb +:+ String LF fence) = true) as Hends.
    { replace (String c tb +:+ String LF fence) with ((String c tb +:+ str1 LF) +:+ fence)
        by (rewrite string_append_assoc; reflexivity).
      apply endsWith_append. }
    rewrite Hends, splitNewlines_append. change (splitNewlines fence) with [fence].
    rewrite take_all_but_last, joinLines_splitNewlines, Htrim.
    destruct isClaudeModel; reflexivity.
Qed.
Lemma fenced_block_is_unwrapped_witness :
  preprocessContent true (fun s => s)
    (fence +:+ "ts" +:+ String LF ("  let x = 1; " +:+ String LF fence))
  = "let x = 1;".
Proof.
  refine (eq_trans (fenced_block_is_unwrapped true (fun s => s) "ts" "  let x = 1; " _) _);
    vm_compute; reflexivity.
Defined.

End Preprocess.

(** ** An invalid parameter name in the two modes

    The one step on which the modes part ways.  Where the strict step
    reports an invalid parameter name, it keeps the tool-use open and
    appends the rejected tag to [paramValueBuffer]; the relaxed step on the
    same input falls through [handleInvalidTag] to its last lines: it
    appends the rejected tag to [textBuffer] instead, returns to the root
    in [Text] and drops the tool-use being assembled, emitting the strict
    step's events without the invalid-name error. *)
Theorem relaxed_step_abandons_tool (state : ParseStateEnum)
    (ctx : ParserContext) (char : ascii) :
  let strict := processChar state (withMode false ctx) char in
  let relaxed := processChar state (withMode true ctx) char in
  existsb isInvalidParamName strict.2 = true ->
  exists extra,
    (extra = EmptyString \/ extra = str1 char)
    /\ (strict.1.2 = TextContent
        /\ currentNode strict.1.1 = currentNode ctx
        /\ currentToolUse strict.1.1 = currentToolUse ctx
        /\ textBuffer strict.1.1 = textBuffer ctx
        /\ paramValueBuffer strict.1.1
           = paramValueBuffer ctx +:+ "<" +:+ (tagBuffer ctx +:+ extra) +:+ str1 char)
    /\ (relaxed.1.2 = Text
        /\ currentNode relaxed.1.1 = RootNode
        /\ currentToolUse relaxed.1.1 = None
        /\ currentParamName relaxed.1.1 = None
        /\ paramValueBuffer relaxed.1.1 = EmptyString
        /\ textBuffer relaxed.1.1
           = textBuffer ctx +:+ "<" +:+ (tagBuffer ctx +:+ extra) +:+ str1 char)
    /\ relaxed.2 = List.filter (fun e => negb (isInvalidParamName e)) strict.2.
Proof.
  destruct ctx as [tb tg pvb ctb node ctu cpn [names byTool relaxed]].
  unfold withMode; simpl.
  destruct node; destruct state; unfold_states;
    unfold findChildSchema, hasChildSchemaWithPrefix; simpl.
  all: repeat (case_inner; simpl).
  all: try discriminate.
  all: intros _.
  all: first [ exists (str1 char); split; [right; reflexivity|];
               repeat apply conj; reflexivity
             | exists EmptyString; split; [left; reflexivity|];
               rewrite string_append_empty; repeat apply conj; reflexivity ].
Qed.

Lemma relaxed_step_abandons_tool_witness :
  let ctx :=
    context (processChars (newParser (readFileOptions false)) "a<read_file><x").1 in
  (processChar TagName (withMode false ctx) ">").2 = [ErrorEvent (InvalidParamName "x" "read_file")]
  /\ (processChar TagName (withMode true ctx) ">").2 = []
  /\ currentToolUse (processChar TagName (withMode true ctx) ">").1.1 = None
  /\ textBuffer (processChar TagName (withMode true ctx) ">").1.1 = "<x>".
Proof.
  intros ctx.
  destruct (relaxed_step_abandons_tool TagName ctx ">") as (extra & _ & _ & Hrelaxed & Hev).
  { vm_compute. reflexivity. }
  split; [vm_compute; reflexivity|]. split; [vm_compute; reflexivity|].
  split; [apply Hrelaxed|]. vm_compute. reflexivity.
Defined.
